(** * A shallow embedding of [honeypot.py]

    The program is a low-interaction honeypot: [Honeypot.__init__] fixes the
    port list, [Honeypot.start_listener] accepts connections on one port,
    [Honeypot.handle_connection] talks to one peer and
    [Honeypot.log_activity] appends one JSON line per received chunk.

    Python values are modelled as follows.
    - [int] is [Z].
    - [bytes] is [list byte].
    - a [str] read from the environment or built by the program is a
      [string]; each character stands for the code point of the same number
      (so the model covers code points below 256).
    - the [str] produced by [bytes.decode] is a list of code points
      ([list Z]), since it may hold any Unicode scalar value.
    - a raised exception is a value of type [exn]; a call that may raise
      returns a sum or an option.
    - the console ([print]) is a list of lines. *)

From Stdlib Require Import ZArith Lia Ascii String List Bool.
From Stdlib Require Import Strings.Byte.
From Stdlib Require Import Numbers.DecimalString Numbers.DecimalPos.
From stdpp Require Import base option list gmap strings.

Local Open Scope string_scope.
Local Open Scope Z_scope.

(** ** Python built-ins used by the program *)

Module Py.

Definition ord (c : ascii) : Z := Z.of_N (N_of_ascii c).

(** [str(n)] for an integer, as used by f-strings. *)
Definition str_of_int (n : Z) : string :=
  NilEmpty.string_of_int (Z.to_int n).

(** Truth value of a [str]: non-empty. *)
Definition truthy (s : string) : bool :=
  match s with
  | EmptyString => false
  | String _ _ => true
  end.

(** [Py_UNICODE_ISSPACE], the test behind [str.strip()], on code points
    below 256: TAB..CR, FS..US, space, NEL and NBSP. *)
Definition Py_UNICODE_ISSPACE (c : ascii) : bool :=
  let n := ord c in
  (((9 <=? n) && (n <=? 13)) || ((28 <=? n) && (n <=? 32))
   || (n =? 133) || (n =? 160))%Z.

(** [Py_ISSPACE], the C-locale test used inside [PyLong_FromString]. *)
Definition Py_ISSPACE (c : ascii) : bool :=
  let n := ord c in
  (((9 <=? n) && (n <=? 13)) || (n =? 32))%Z.

Fixpoint lstrip (s : string) : string :=
  match s with
  | String c r => if Py_UNICODE_ISSPACE c then lstrip r else s
  | EmptyString => EmptyString
  end.

Fixpoint rstrip (s : string) : string :=
  match s with
  | String c r =>
      match rstrip r with
      | EmptyString => if Py_UNICODE_ISSPACE c then EmptyString
                       else String c EmptyString
      | r' => String c r'
      end
  | EmptyString => EmptyString
  end.

(** [s.strip()] *)
Definition strip (s : string) : string := rstrip (lstrip s).

(** [s.split(sep)] for a one-character separator: always at least one
    piece, one more piece than there are separators. *)
Fixpoint split (sep : ascii) (s : string) : list string :=
  match s with
  | EmptyString => [EmptyString]
  | String c r =>
      if Ascii.eqb c sep then EmptyString :: split sep r
      else match split sep r with
           | h :: t => String c h :: t
           | [] => [String c EmptyString]
           end
  end.

(** *** [int(s)] in base 10

    [PyLong_FromUnicodeObject] first maps every non-ASCII white space to
    a space and every other non-ASCII character to [?]
    ([_PyUnicode_TransformDecimalAndSpaceToASCII]; below 256 there is no
    non-ASCII decimal digit), then [PyLong_FromString] skips C white
    space, reads a sign, and [long_from_string_base] checks digits and
    single underscores between them.  [None] stands for [ValueError]. *)

Definition transform_char (c : ascii) : ascii :=
  if (ord c <? 127)%Z then c
  else if Py_UNICODE_ISSPACE c then " "%char else "?"%char.

Fixpoint transform (s : string) : string :=
  match s with
  | EmptyString => EmptyString
  | String c r => String (transform_char c) (transform r)
  end.

Fixpoint skip_space (s : string) : string :=
  match s with
  | String c r => if Py_ISSPACE c then skip_space r else s
  | EmptyString => EmptyString
  end.

Definition digit_value (c : ascii) : option Z :=
  let n := ord c in
  if ((48 <=? n) && (n <=? 57))%Z then Some (n - 48) else None.

(** The scan of [long_from_string_base]: [prev_us] says that the previous
    character was an underscore, [acc] is the value read so far and
    [digits] the number of digits (underscores not counted).  It stops at
    the first character that is neither a digit nor an underscore. *)
Fixpoint scan (s : string) (prev_us : bool) (acc : Z) (digits : nat)
  : option (Z * nat * string) :=
  match s with
  | String c r =>
      if Ascii.eqb c "_"%char then
        if prev_us then None else scan r true acc digits
      else
        match digit_value c with
        | Some d => scan r false (10 * acc + d) (S digits)
        | None => if prev_us then None else Some (acc, digits, s)
        end
  | EmptyString => if prev_us then None else Some (acc, digits, EmptyString)
  end.

(** [sys.int_info.default_max_str_digits] *)
Definition max_str_digits : nat := 4300.

Definition PyLong_FromString (s : string) : option Z :=
  let s1 := skip_space s in
  let '(sign, s2) :=
    match s1 with
    | String "+"%char r => (1, r)
    | String "-"%char r => (-1, r)
    | _ => (1, s1)
    end in
  match s2 with
  | String "_"%char _ => None
  | _ =>
      match scan s2 false 0 0 with
      | None => None
      | Some (v, digits, rest) =>
          if Nat.eqb digits 0 then None
          else if truthy (skip_space rest) then None
          else if Nat.ltb max_str_digits digits then None
          else Some (sign * v)
      end
  end.

(** [int(s)] *)
Definition int (s : string) : option Z := PyLong_FromString (transform s).

End Py.

(** ** [Honeypot.__init__]: the port list *)

Definition DEFAULT_PORTS : list Z := [21; 22; 80; 443].

(** The comprehension
    [[int(p) for p in env_ports.split(',') if p.strip()]];
    [None] stands for the [ValueError] of the first entry [int] rejects. *)
Definition comprehension (env_ports : string) : option (list Z) :=
  mapM Py.int
    (List.filter (fun p => Py.truthy (Py.strip p)) (Py.split ","%char env_ports)).

Record Honeypot := {
  bind_ip : string;
  ports : list Z;
  log_file : string
}.

(** [__init__(self, bind_ip, ports, log_dir)].  [getenv] is the value of
    [os.getenv("HONEYPOT_PORTS")], [today] the result of
    [datetime.datetime.now().strftime('%Y%m%d')].  The second component is
    what the constructor prints. *)
Definition init_ports (ports_arg : option (list Z)) (getenv : option string)
  : list Z * list string :=
  match ports_arg with
  | Some ps => (ps, [])
  | None =>
      match getenv with
      | Some env_ports =>
          if Py.truthy env_ports then
            match comprehension env_ports with
            | Some ps => (ps, [])
            | None =>
                (DEFAULT_PORTS, ["Invalid HONEYPOT_PORTS value: " ++ env_ports])
            end
          else (DEFAULT_PORTS, [])
      | None => (DEFAULT_PORTS, [])
      end
  end.

Definition init (bind_ip : string) (ports_arg : option (list Z))
  (log_dir : string) (getenv : option string) (today : string)
  : Honeypot * list string :=
  let '(ps, out) := init_ports ports_arg getenv in
  ({| bind_ip := bind_ip; ports := ps;
      log_file := log_dir ++ "/honeypot_" ++ today ++ ".json" |}, out).

(** ** [bytes.decode('utf-8', errors=...)] and [str.encode()]

    The decoder follows CPython's [utf8_decode] (stringlib/codecs.h) and
    its caller [unicode_decode_utf8]: one call of [utf8_decode] either
    yields a code point or names an error, the caller turns the error into
    a range of input bytes and hands it to the error handler. *)

Module Utf8.

Definition Z_of_byte (b : Byte.byte) : Z := Z.of_N (Byte.to_N b).
Definition byte_of_Z (z : Z) : Byte.byte :=
  match Byte.of_N (Z.to_N z) with
  | Some b => b
  | None => Byte.x00
  end.

Definition IS_CONTINUATION_BYTE (ch : Z) : bool :=
  (0x80 <=? ch) && (ch <? 0xC0).

(** What one round of [utf8_decode] finds at the head of the input. *)
Inductive step :=
| Decoded (ch : Z) (n : nat)       (* a code point read from [n] bytes *)
| UnexpectedEnd                    (* the sequence is cut by the end of data *)
| InvalidStart                     (* the first byte cannot start a sequence *)
| InvalidContinuation (k : nat).   (* the byte at index [k] is not a valid continuation *)

Definition utf8_decode (s : list Z) : step :=
  match s with
  | [] => UnexpectedEnd
  | ch :: s1 =>
      if ch <? 0x80 then Decoded ch 1
      else if ch <? 0xE0 then
        (* \xC2\x80-\xDF\xBF -- 0080-07FF *)
        if ch <? 0xC2 then InvalidStart
        else match s1 with
             | [] => UnexpectedEnd
             | ch2 :: _ =>
                 if negb (IS_CONTINUATION_BYTE ch2) then InvalidContinuation 1
                 else Decoded (Z.shiftl ch 6 + ch2 - (Z.shiftl 0xC0 6 + 0x80)) 2
             end
      else if ch <? 0xF0 then
        (* \xE0\xA0\x80-\xEF\xBF\xBF -- 0800-FFFF *)
        match s1 with
        | [] => UnexpectedEnd
        | ch2 :: s2 =>
            if negb (IS_CONTINUATION_BYTE ch2)
               || (if ch2 <? 0xA0 then ch =? 0xE0 else ch =? 0xED)
            then InvalidContinuation 1
            else match s2 with
                 | [] => UnexpectedEnd
                 | ch3 :: _ =>
                     if negb (IS_CONTINUATION_BYTE ch3) then InvalidContinuation 2
                     else Decoded (Z.shiftl ch 12 + Z.shiftl ch2 6 + ch3
                                   - (Z.shiftl 0xE0 12 + Z.shiftl 0x80 6 + 0x80)) 3
                 end
        end
      else if ch <? 0xF5 then
        (* \xF0\x90\x80\x80-\xF4\x8F\xBF\xBF -- 10000-10FFFF *)
        match s1 with
        | [] => UnexpectedEnd
        | ch2 :: s2 =>
            if negb (IS_CONTINUATION_BYTE ch2)
               || (if ch2 <? 0x90 then ch =? 0xF0 else ch =? 0xF4)
            then InvalidContinuation 1
            else match s2 with
                 | [] => UnexpectedEnd
                 | ch3 :: s3 =>
                     if negb (IS_CONTINUATION_BYTE ch3) then InvalidContinuation 2
                     else match s3 with
                          | [] => UnexpectedEnd
                          | ch4 :: _ =>
                              if negb (IS_CONTINUATION_BYTE ch4)
                              then InvalidContinuation 3
                              else Decoded
                                     (Z.shiftl ch 18 + Z.shiftl ch2 12
                                      + Z.shiftl ch3 6 + ch4
                                      - (Z.shiftl 0xF0 18 + Z.shiftl 0x80 12
                                         + Z.shiftl 0x80 6 + 0x80)) 4
                          end
                 end
        end
      else InvalidStart
  end.

(** The [errors] argument of [decode]. *)
Inductive errors := strict | ignore | replace.

(** [endinpos - startinpos] of [unicode_decode_utf8]: the bytes an error
    covers. *)
Definition error_range (e : step) (s : list Z) : nat :=
  match e with
  | Decoded _ n => n
  | UnexpectedEnd => length s
  | InvalidStart => 1
  | InvalidContinuation k => k
  end.

Definition errmsg (e : step) : string :=
  match e with
  | Decoded _ _ => ""
  | UnexpectedEnd => "unexpected end of data"
  | InvalidStart => "invalid start byte"
  | InvalidContinuation _ => "invalid continuation byte"
  end.

(** The decoding loop; [None] stands for [UnicodeDecodeError], which only
    the [strict] handler raises.  Every round consumes at least one byte,
    so [length s] rounds are enough (see [decode]). *)
Fixpoint decode_loop (fuel : nat) (h : errors) (s : list Z)
  : string + list Z :=
  match fuel, s with
  | _, [] => inr []
  | O, _ => inr []
  | S fuel', _ =>
      match utf8_decode s with
      | Decoded ch n =>
          match decode_loop fuel' h (drop n s) with
          | inr t => inr (ch :: t)
          | inl m => inl m
          end
      | e =>
          match h with
          | strict => inl (errmsg e)
          | ignore => decode_loop fuel' h (drop (error_range e s) s)
          | replace =>
              match decode_loop fuel' h (drop (error_range e s) s) with
              | inr t => inr (0xFFFD :: t)
              | inl m => inl m
              end
          end
      end
  end.

(** [data.decode('utf-8', errors=h)]: the message of the
    [UnicodeDecodeError], or the text. *)
Definition decode (data : list Byte.byte) (h : errors) : string + list Z :=
  decode_loop (length data) h (map Z_of_byte data).

(** [utf8_encoder] of CPython for one code point; a surrogate cannot be
    encoded ([None], a [UnicodeEncodeError] under the default handler). *)
Definition encode_char (ch : Z) : option (list Z) :=
  if ch <? 0x80 then Some [ch]
  else if ch <? 0x0800 then
    Some [Z.lor 0xC0 (Z.shiftr ch 6); Z.lor 0x80 (Z.land ch 0x3F)]
  else if (0xD800 <=? ch) && (ch <=? 0xDFFF) then None
  else if ch <? 0x10000 then
    Some [Z.lor 0xE0 (Z.shiftr ch 12);
          Z.lor 0x80 (Z.land (Z.shiftr ch 6) 0x3F);
          Z.lor 0x80 (Z.land ch 0x3F)]
  else
    Some [Z.lor 0xF0 (Z.shiftr ch 18);
          Z.lor 0x80 (Z.land (Z.shiftr ch 12) 0x3F);
          Z.lor 0x80 (Z.land (Z.shiftr ch 6) 0x3F);
          Z.lor 0x80 (Z.land ch 0x3F)].

Fixpoint encode_text (t : list Z) : option (list Z) :=
  match t with
  | [] => Some []
  | ch :: t' =>
      match encode_char ch, encode_text t' with
      | Some b, Some bs => Some (b ++ bs)%list
      | _, _ => None
      end
  end.

(** [s.encode()] for a [str] of the program. *)
Definition encode (s : string) : option (list Byte.byte) :=
  match encode_text (map Py.ord (list_ascii_of_string s)) with
  | Some bs => Some (map byte_of_Z bs)
  | None => None
  end.

End Utf8.

(** ** Sockets, the log file and the console

    The handler and the listener run against an environment they do not
    control: the peer, the operating system and the clock.  The results of
    the successive [recv] (or [accept]) calls are given as a list, in
    order; when the list is used up the thread is waiting inside the call.
    The outcomes of [sendall] and of the append to the log file, and the
    reading of the clock, are given per call number.  Everything the thread
    does is recorded as a trace of events. *)

(** An instance of [Exception] raised by a socket or file operation;
    [str(e)] is its message. *)
Inductive exn :=
| OSError (msg : string)
| UnicodeError (msg : string).

Definition str_of_exn (e : exn) : string :=
  match e with OSError msg | UnicodeError msg => msg end.

Abbreviation bytes := (list Byte.byte).

(** The [entry] dictionary of [log_activity]. *)
Record Entry := {
  timestamp : string;
  remote_ip : string;
  port : Z;
  data : list Z
}.

Abbreviation conn := (nat * (string * Z))%type.

Inductive event :=
| Sendall (payload : bytes) (r : option exn)  (* client_socket.sendall(payload); [None]: it returned *)
| Recv (r : exn + bytes)                      (* client_socket.recv(1024) *)
| Append (path : string) (entry : Entry) (r : option exn)
                                              (* open(path, 'a'), json.dump(entry, f), f.write('\n') *)
| Print (line : string)                       (* print(line) *)
| Close                                       (* client_socket.close() *)
| Listen (ip : string) (port : Z) (r : option exn)
                                              (* socket(), setsockopt(), bind((ip, port)), listen(5) *)
| Accept (r : exn + conn)                     (* server.accept() *)
| Start (client : nat) (ip : string) (port : Z).
                                              (* Thread(target=handle_connection, args=...).start() *)

Record env := {
  send_result : nat -> option exn;   (* outcome of the n-th sendall *)
  write_result : nat -> option exn;  (* outcome of the n-th append to the log file *)
  clock : nat -> string              (* datetime.datetime.now().isoformat() at the n-th reading *)
}.

Record state := {
  sends : nat;
  writes : nat;
  ticks : nat;
  trace : list event
}.

Definition initial : state :=
  {| sends := 0; writes := 0; ticks := 0; trace := [] |}.

(** How a piece of code ends: it returns a value, raises, or is still
    waiting in a blocking call when the given input is used up. *)
Inductive res (A : Type) :=
| Ret (a : A)
| Raise (e : exn)
| Wait.
Arguments Ret {A} a.
Arguments Raise {A} e.
Arguments Wait {A}.

Definition M (A : Type) : Type := env -> state -> state * res A.

Definition ret {A} (a : A) : M A := fun _ st => (st, Ret a).

Definition bind {A B} (m : M A) (k : A -> M B) : M B :=
  fun w st =>
    match m w st with
    | (st', Ret a) => k a w st'
    | (st', Raise e) => (st', Raise e)
    | (st', Wait) => (st', Wait)
    end.

#[export] Instance M_ret : MRet M := @ret.
#[export] Instance M_bind : MBind M := fun A B k m => bind m k.

Definition raise {A} (e : exn) : M A := fun _ st => (st, Raise e).
Definition wait {A} : M A := fun _ st => (st, Wait).

(** [try: body / except Exception as e: handler(e)] *)
Definition try_except {A} (body : M A) (handler : exn -> M A) : M A :=
  fun w st =>
    match body w st with
    | (st', Raise e) => handler e w st'
    | r => r
    end.

(** [try: body / finally: cleanup]: the cleanup runs when the body leaves,
    by return or by exception, and the body's outcome is kept. *)
Definition try_finally {A} (body : M A) (cleanup : M unit) : M A :=
  fun w st =>
    match body w st with
    | (st', Ret a) =>
        match cleanup w st' with
        | (st'', Ret _) => (st'', Ret a)
        | (st'', Raise e) => (st'', Raise e)
        | (st'', Wait) => (st'', Wait)
        end
    | (st', Raise e) =>
        match cleanup w st' with
        | (st'', Ret _) => (st'', Raise e)
        | (st'', Raise e') => (st'', Raise e')
        | (st'', Wait) => (st'', Wait)
        end
    | (st', Wait) => (st', Wait)
    end.

Definition emit (e : event) (st : state) : state :=
  {| sends := sends st; writes := writes st; ticks := ticks st;
     trace := (trace st ++ [e])%list |}.

Definition print (line : string) : M unit :=
  fun _ st => (emit (Print line) st, Ret tt).

Definition close : M unit :=
  fun _ st => (emit Close st, Ret tt).

Definition sendall (payload : bytes) : M unit :=
  fun w st =>
    let r := send_result w (sends st) in
    let st' := emit (Sendall payload r)
                 {| sends := S (sends st); writes := writes st;
                    ticks := ticks st; trace := trace st |} in
    match r with
    | None => (st', Ret tt)
    | Some e => (st', Raise e)
    end.

(** One [recv(1024)] whose result the environment fixed as [r]. *)
Definition recv (r : exn + bytes) : M bytes :=
  fun _ st =>
    match r with
    | inr d => (emit (Recv r) st, Ret d)
    | inl e => (emit (Recv r) st, Raise e)
    end.

Definition now : M string :=
  fun w st =>
    ({| sends := sends st; writes := writes st; ticks := S (ticks st);
        trace := trace st |}, Ret (clock w (ticks st))).

(** The [with open(self.log_file, 'a', encoding='utf-8')] block. *)
Definition append_log (path : string) (entry : Entry) : M unit :=
  fun w st =>
    let r := write_result w (writes st) in
    let st' := emit (Append path entry r)
                 {| sends := sends st; writes := S (writes st);
                    ticks := ticks st; trace := trace st |} in
    match r with
    | None => (st', Ret tt)
    | Some e => (st', Raise e)
    end.

(** ** [Honeypot.log_activity] *)

Definition log_activity (self : Honeypot) (port : Z) (remote_ip : string)
  (data : bytes) : M unit :=
  ts ← now;
  text ← match Utf8.decode data Utf8.ignore with
          | inr t => ret t
          | inl m => raise (UnicodeError m)
          end;
  let entry := {| timestamp := ts; remote_ip := remote_ip; port := port;
                  data := text |} in
  try_except
    (append_log (log_file self) entry)
    (fun e => print ("[!] Failed to write log entry: " ++ str_of_exn e)).

(** ** [Honeypot.handle_connection] *)

Definition CRLF : string := String "013" (String "010" EmptyString).

Definition service_banners : gmap Z string :=
  {[ 21 := "220 FTP server ready" ++ CRLF;
     22 := "SSH-2.0-OpenSSH_8.2p1 Ubuntu-4ubuntu0.1" ++ CRLF;
     80 := "HTTP/1.1 200 OK" ++ CRLF ++ "Server: Apache/2.4.41 (Ubuntu)"
           ++ CRLF ++ CRLF;
     443 := "HTTP/1.1 200 OK" ++ CRLF ++ "Server: Apache/2.4.41 (Ubuntu)"
            ++ CRLF ++ CRLF ]}.

(** [b"Command not recognized.\r\n"] *)
Definition reply : bytes :=
  list_byte_of_string ("Command not recognized." ++ CRLF).

(** [banner.encode()] *)
Definition encode_banner (banner : string) : M bytes :=
  match Utf8.encode banner with
  | Some b => ret b
  | None => raise (UnicodeError "surrogates not allowed")
  end.

(** The [while True] loop, run against the results [inbound] of the
    successive [recv] calls. *)
Fixpoint recv_loop (self : Honeypot) (remote_ip : string) (port : Z)
  (inbound : list (exn + bytes)) : M unit :=
  match inbound with
  | [] => wait
  | r :: rest =>
      data ← recv r;
      match data with
      | [] => ret tt
      | _ =>
          log_activity self port remote_ip data;;
          sendall reply;;
          recv_loop self remote_ip port rest
      end
  end.

Definition handle_connection (self : Honeypot) (inbound : list (exn + bytes))
  (remote_ip : string) (port : Z) : M unit :=
  try_finally
    (try_except
       (match service_banners !! port with
        | Some banner =>
            if Py.truthy banner
            then (b ← encode_banner banner; sendall b)
            else ret tt
        | None => ret tt
        end;;
        recv_loop self remote_ip port inbound)
       (fun e =>
          print ("[!] Error handling connection on port "
                 ++ Py.str_of_int port ++ ": " ++ str_of_exn e)))
    close.

(** ** [Honeypot.start_listener] *)

Definition accept (r : exn + conn) : M conn :=
  fun _ st =>
    match r with
    | inr c => (emit (Accept r) st, Ret c)
    | inl e => (emit (Accept r) st, Raise e)
    end.

Definition listen (ip : string) (port : Z) (r : option exn) : M unit :=
  fun _ st =>
    match r with
    | None => (emit (Listen ip port r) st, Ret tt)
    | Some e => (emit (Listen ip port r) st, Raise e)
    end.

Definition start (client : nat) (ip : string) (port : Z) : M unit :=
  fun _ st => (emit (Start client ip port) st, Ret tt).

(** The [while True] loop, run against the results [accepts] of the
    successive [accept] calls. *)
Fixpoint accept_loop (port : Z) (accepts : list (exn + conn)) : M unit :=
  match accepts with
  | [] => wait
  | r :: rest =>
      c ← accept r;
      let '(client, (remote_ip, remote_port)) := c in
      print ("[*] Accepted connection from " ++ remote_ip ++ ":"
             ++ Py.str_of_int remote_port ++ " on port " ++ Py.str_of_int port);;
      start client remote_ip port;;
      accept_loop port rest
  end.

(** [setup] is the outcome of creating, binding and listening on the
    server socket. *)
Definition start_listener (self : Honeypot) (port : Z) (setup : option exn)
  (accepts : list (exn + conn)) : M unit :=
  try_except
    (listen (bind_ip self) port setup;;
     print ("[*] Listening on " ++ bind_ip self ++ ":" ++ Py.str_of_int port);;
     accept_loop port accepts)
    (fun e =>
       print ("[!] Error starting listener on port " ++ Py.str_of_int port
              ++ ": " ++ str_of_exn e)).

(** ** Vocabulary of the statements *)

Definition is_byte (z : Z) : Prop := 0 <= z < 256.

(** What [log_activity] prints after an append with outcome [r]. *)
Definition failure_line (r : option exn) : list event :=
  match r with
  | None => []
  | Some e => [Print ("[!] Failed to write log entry: " ++ str_of_exn e)]
  end.


Definition is_recv (e : event) : bool :=
  match e with Recv _ => true | _ => false end.

Definition is_close (e : event) : bool :=
  match e with Close => true | _ => false end.

Definition is_accept (e : event) : bool :=
  match e with Accept _ => true | _ => false end.

(** The events of the receive loop of one connection and how the loop
    ends: one round per received chunk. *)
Inductive loop_trace (self : Honeypot) (ip : string) (p : Z)
  : list event -> res unit -> Prop :=
| loop_wait : loop_trace self ip p [] Wait
| loop_eof : loop_trace self ip p [Recv (inr [])] (Ret tt)
| loop_recv_error e : loop_trace self ip p [Recv (inl e)] (Raise e)
| loop_send_error d ts text r1 e :
    d <> [] ->
    Utf8.decode d Utf8.ignore = inr text ->
    loop_trace self ip p
      (Recv (inr d)
       :: Append (log_file self)
            {| timestamp := ts; remote_ip := ip; port := p; data := text |} r1
       :: failure_line r1 ++ [Sendall reply (Some e)])%list
      (Raise e)
| loop_round d ts text r1 rest r :
    d <> [] ->
    Utf8.decode d Utf8.ignore = inr text ->
    loop_trace self ip p rest r ->
    loop_trace self ip p
      (Recv (inr d)
       :: Append (log_file self)
            {| timestamp := ts; remote_ip := ip; port := p; data := text |} r1
       :: failure_line r1 ++ Sendall reply None :: rest)%list
      r.

(** What the handler does once the receive loop has ended with [r]. *)
Definition epilogue (p : Z) (r : res unit) : list event :=
  match r with
  | Ret _ => [Close]
  | Raise e =>
      [Print ("[!] Error handling connection on port "
              ++ Py.str_of_int p ++ ": " ++ str_of_exn e); Close]
  | Wait => []
  end.

(** How the handler ends when the receive loop has ended with [r]: the
    exception is caught, so it returns unless it is still waiting. *)
Definition outcome (r : res unit) : res unit :=
  match r with
  | Wait => Wait
  | _ => Ret tt
  end.

(** The events of one run of the handler: what goes out before the first
    read ([pre]), the receive loop ([ext]) and how the loop ends ([r]). *)
Inductive handler_shape (self : Honeypot) (ip : string) (p : Z)
  : list event -> list event -> res unit -> Prop :=
| shape_no_banner ext r :
    service_banners !! p = None ->
    loop_trace self ip p ext r ->
    handler_shape self ip p [] ext r
| shape_banner banner ext r :
    service_banners !! p = Some banner ->
    loop_trace self ip p ext r ->
    handler_shape self ip p [Sendall (list_byte_of_string banner) None] ext r
| shape_banner_failed banner e :
    service_banners !! p = Some banner ->
    handler_shape self ip p
      [Sendall (list_byte_of_string banner) (Some e)] [] (Raise e).

(** ** Sample runs

    Concrete environments and inputs on which the statements below are
    evaluated. *)

Definition sample : Honeypot :=
  fst (init "0.0.0.0" None "honeypot_logs" None "20240101").

(** Every send and every append succeeds. *)
Definition calm : env :=
  {| send_result := fun _ => None;
     write_result := fun _ => None;
     clock := fun _ => "2024-01-01T12:00:00.000000" |}.

(** Every append to the log file fails. *)
Definition disk_full : env :=
  {| send_result := fun _ => None;
     write_result := fun _ => Some (OSError "[Errno 28] No space left on device");
     clock := fun _ => "2024-01-01T12:00:00.000000" |}.

(** Every [sendall] fails. *)
Definition broken_pipe : env :=
  {| send_result := fun _ => Some (OSError "[Errno 32] Broken pipe");
     write_result := fun _ => None;
     clock := fun _ => "2024-01-01T12:00:00.000000" |}.

(** [b"ls\n"] *)
Definition ls_chunk : bytes := list_byte_of_string ("ls" ++ String "010" EmptyString).

(** [b"a\xffb"]: the byte [0xFF] never occurs in UTF-8. *)
Definition stray_byte_chunk : bytes := map Utf8.byte_of_Z [0x61; 0xFF; 0x62].

Definition peer : string := "203.0.113.5".

(** ** [Honeypot.start_listener] with the outcome of starting each thread

    [handler.start()] raises [RuntimeError] when no thread can be created,
    and the call sits inside the listener's [try].  [start_listener] above
    takes every start to succeed; here each accepted connection comes with
    the outcome of starting its handler thread ([None]: the thread runs). *)

Abbreviation arrival := (exn + (conn * option exn))%type.

(** [handler.start()] with the outcome [r]. *)
Definition start_thread (client : nat) (ip : string) (port : Z)
  (r : option exn) : M unit :=
  match r with
  | None => start client ip port
  | Some e => raise e
  end.

Fixpoint accept_loop_threads (port : Z) (arrivals : list arrival) : M unit :=
  match arrivals with
  | [] => wait
  | a :: rest =>
      c ← accept (match a with inl e => inl e | inr (c, _) => inr c end);
      let '(client, (remote_ip, remote_port)) := c in
      print ("[*] Accepted connection from " ++ remote_ip ++ ":"
             ++ Py.str_of_int remote_port ++ " on port " ++ Py.str_of_int port);;
      start_thread client remote_ip port
        (match a with inl _ => None | inr (_, r) => r end);;
      accept_loop_threads port rest
  end.

Definition start_listener_threads (self : Honeypot) (port : Z)
  (setup : option exn) (arrivals : list arrival) : M unit :=
  try_except
    (listen (bind_ip self) port setup;;
     print ("[*] Listening on " ++ bind_ip self ++ ":" ++ Py.str_of_int port);;
     accept_loop_threads port arrivals)
    (fun e =>
       print ("[!] Error starting listener on port " ++ Py.str_of_int port
              ++ ": " ++ str_of_exn e)).

(** ** Vocabulary of the further statements *)

(** [sep.join(pieces)] *)
Fixpoint join (sep : ascii) (pieces : list string) : string :=
  match pieces with
  | [] => EmptyString
  | [p] => p
  | p :: rest => p ++ String sep (join sep rest)
  end.

Fixpoint chars (s : string) : list ascii :=
  match s with
  | EmptyString => []
  | String c r => c :: chars r
  end.

(** A Unicode scalar value: a code point that is not a surrogate. *)
Definition scalar (c : Z) : Prop :=
  0 <= c <= 0x10FFFF /\ ~ (0xD800 <= c <= 0xDFFF).

(** The value [scan] accumulates over the decimal digits [u]. *)
Fixpoint uval (u : Decimal.uint) (acc : Z) : Z :=
  match u with
  | Decimal.Nil => acc
  | Decimal.D0 l => uval l (10 * acc + 0)
  | Decimal.D1 l => uval l (10 * acc + 1)
  | Decimal.D2 l => uval l (10 * acc + 2)
  | Decimal.D3 l => uval l (10 * acc + 3)
  | Decimal.D4 l => uval l (10 * acc + 4)
  | Decimal.D5 l => uval l (10 * acc + 5)
  | Decimal.D6 l => uval l (10 * acc + 6)
  | Decimal.D7 l => uval l (10 * acc + 7)
  | Decimal.D8 l => uval l (10 * acc + 8)
  | Decimal.D9 l => uval l (10 * acc + 9)
  end.

(** The text [log_activity] stores for the chunk [d]. *)
Definition logged_text (d : bytes) : list Z :=
  match Utf8.decode d Utf8.ignore with
  | inr t => t
  | inl _ => []
  end.

(** The non-empty chunks received, the records appended, the payloads
    handed to [sendall], the connections accepted and the handlers started,
    each in the order of the trace. *)
Fixpoint chunks (tr : list event) : list bytes :=
  match tr with
  | [] => []
  | Recv (inr (b :: d)) :: rest => (b :: d) :: chunks rest
  | _ :: rest => chunks rest
  end.

Fixpoint records (tr : list event) : list (string * Entry) :=
  match tr with
  | [] => []
  | Append path entry _ :: rest => (path, entry) :: records rest
  | _ :: rest => records rest
  end.

Fixpoint payloads (tr : list event) : list bytes :=
  match tr with
  | [] => []
  | Sendall payload _ :: rest => payload :: payloads rest
  | _ :: rest => payloads rest
  end.

Fixpoint accepted (tr : list event) : list conn :=
  match tr with
  | [] => []
  | Accept (inr c) :: rest => c :: accepted rest
  | _ :: rest => accepted rest
  end.

Fixpoint starts (tr : list event) : list (nat * string * Z) :=
  match tr with
  | [] => []
  | Start client ip p :: rest => (client, ip, p) :: starts rest
  | _ :: rest => starts rest
  end.

(** The connections handed to a handler thread: those that arrive before
    the first failure, of [accept] or of a thread start. *)
Fixpoint served (arrivals : list arrival) : list conn :=
  match arrivals with
  | inr (c, None) :: rest => c :: served rest
  | _ => []
  end.

(** The connections accepted: the served ones and, when the first failure
    is a thread start, the connection that thread was for. *)
Fixpoint taken (arrivals : list arrival) : list conn :=
  match arrivals with
  | inr (c, None) :: rest => c :: taken rest
  | inr (c, Some _) :: _ => [c]
  | _ => []
  end.

Definition is_failure (a : arrival) : bool :=
  match a with
  | inr (_, None) => false
  | _ => true
  end.

(** A [recv] result after which the receive loop stops: end of file or an
    error. *)
Definition is_last (r : exn + bytes) : bool :=
  match r with
  | inr (_ :: _) => false
  | _ => true
  end.

(** What the peer and the socket see of a run: the trace without the
    appends to the log file and the console lines. *)
Fixpoint wire (tr : list event) : list event :=
  match tr with
  | [] => []
  | Append _ _ _ :: rest => wire rest
  | Print _ :: rest => wire rest
  | e :: rest => e :: wire rest
  end.

(** Whether one of the [count] calls of [sendall] numbered from [from]
    fails. *)
Definition send_fails (w : env) (from count : nat) : bool :=
  existsb (fun n => match send_result w n with Some _ => true | None => false end)
    (seq from count).

(** Whether the handler leaves on the reads [inbound]: a read is empty or
    fails, or one of the sends it comes to fails (one for the banner, if
    the port has one, and one per chunk). *)
Definition leaves (p : Z) (w : env) (inbound : list (exn + bytes)) : bool :=
  existsb is_last inbound
  || send_fails w 0
       (match service_banners !! p with Some _ => 1 | None => 0 end
        + length inbound).

(** ** Proof automation *)

Ltac split_tests H :=
  repeat (match type of H with
          | context [?a <? ?b] => destruct (Z.ltb_spec a b)
          | context [?a <=? ?b] => destruct (Z.leb_spec a b)
          | context [?a =? ?b] => destruct (Z.eqb_spec a b)
          end; simpl in H; try discriminate H).

Ltac split_goal_tests :=
  repeat (match goal with
          | |- context [?a <? ?b] => destruct (Z.ltb_spec a b); try lia
          | |- context [?a <=? ?b] => destruct (Z.leb_spec a b); try lia
          end; simpl).

Ltac euclid := Z.div_mod_to_equations; lia.


(** * Properties *)

(** ** Decoding *)

Section Utf8Facts.

Import Utf8.

(** A property that holds for the first [n] naturals holds on [0, n). *)
Lemma below_forallb (n : nat) (P : Z -> bool) :
  forallb (fun i => P (Z.of_nat i)) (seq 0 n) = true ->
  forall x, 0 <= x < Z.of_nat n -> P x = true.
Proof.
  intros H x Hx.
  rewrite forallb_forall in H.
  specialize (H (Z.to_nat x)).
  rewrite Z2Nat.id in H by lia.
  apply H, in_seq. lia.
Qed.

Lemma lor_80 x : 0 <= x < 64 -> Z.lor 0x80 x = 0x80 + x.
Proof.
  intros Hx. apply Z.eqb_eq.
  apply (below_forallb 64 (fun x => Z.lor 0x80 x =? 0x80 + x)); [reflexivity | lia].
Qed.

Lemma lor_C0 x : 0 <= x < 32 -> Z.lor 0xC0 x = 0xC0 + x.
Proof.
  intros Hx. apply Z.eqb_eq.
  apply (below_forallb 32 (fun x => Z.lor 0xC0 x =? 0xC0 + x)); [reflexivity | lia].
Qed.

Lemma lor_E0 x : 0 <= x < 16 -> Z.lor 0xE0 x = 0xE0 + x.
Proof.
  intros Hx. apply Z.eqb_eq.
  apply (below_forallb 16 (fun x => Z.lor 0xE0 x =? 0xE0 + x)); [reflexivity | lia].
Qed.

Lemma lor_F0 x : 0 <= x < 8 -> Z.lor 0xF0 x = 0xF0 + x.
Proof.
  intros Hx. apply Z.eqb_eq.
  apply (below_forallb 8 (fun x => Z.lor 0xF0 x =? 0xF0 + x)); [reflexivity | lia].
Qed.

Lemma land_3F x : Z.land x 0x3F = x mod 64.
Proof. change 0x3F with (Z.ones 6). now rewrite Z.land_ones by lia. Qed.

Lemma Z_of_byte_range b : 0 <= Z_of_byte b < 256.
Proof.
  unfold Z_of_byte. pose proof (Byte.to_N_bounded b). lia.
Qed.

Lemma byte_of_Z_of_byte b : byte_of_Z (Z_of_byte b) = b.
Proof.
  unfold byte_of_Z, Z_of_byte. now rewrite N2Z.id, Byte.of_to_N.
Qed.

Lemma bytes_range (data : list Byte.byte) : Forall is_byte (map Z_of_byte data).
Proof.
  induction data as [|b data IH]; simpl; constructor;
    [apply Z_of_byte_range | exact IH].
Qed.

End Utf8Facts.

Section Utf8Decode.

Import Utf8.

(** A decoded code point encodes back to the bytes it was read from. *)
Lemma utf8_decode_sound s ch n :
  Forall is_byte s -> utf8_decode s = Decoded ch n ->
  (1 <= n <= length s)%nat /\ encode_char ch = Some (take n s).
Proof.
  intros Hs H.
  destruct s as [|c1 s1]; [discriminate|].
  apply Forall_cons in Hs as [Hc1 Hs]. unfold is_byte in Hc1.
  unfold utf8_decode, IS_CONTINUATION_BYTE in H.
  destruct (Z.ltb_spec c1 0x80).
  { injection H as <- <-. simpl. split; [lia|].
    unfold encode_char. split_goal_tests. reflexivity. }
  destruct (Z.ltb_spec c1 0xE0).
  { destruct (Z.ltb_spec c1 0xC2); [discriminate|].
    destruct s1 as [|c2 s2]; [discriminate|].
    split_tests H. injection H as <- <-. simpl. split; [lia|].
    rewrite !Z.shiftl_mul_pow2 by lia.
    unfold encode_char. split_goal_tests.
    rewrite Z.shiftr_div_pow2, land_3F by lia.
    rewrite lor_C0, lor_80 by euclid.
    do 3 f_equal; euclid. }
  destruct (Z.ltb_spec c1 0xF0).
  { destruct s1 as [|c2 [|c3 s3]]; try discriminate.
    - split_tests H.
    - split_tests H; injection H as <- <-; (simpl; split; [lia|]);
        rewrite !Z.shiftl_mul_pow2 by lia;
        unfold encode_char; split_goal_tests;
        rewrite !Z.shiftr_div_pow2, !land_3F by lia;
        rewrite lor_E0, !lor_80 by euclid;
        do 4 f_equal; euclid. }
  destruct (Z.ltb_spec c1 0xF5); [|discriminate].
  destruct s1 as [|c2 [|c3 [|c4 s4]]]; try discriminate.
  - split_tests H.
  - split_tests H.
  - split_tests H; injection H as <- <-; (simpl; split; [lia|]);
      rewrite !Z.shiftl_mul_pow2 by lia;
      unfold encode_char; split_goal_tests;
      rewrite !Z.shiftr_div_pow2, !land_3F by lia;
      rewrite lor_F0, !lor_80 by euclid;
      do 5 f_equal; euclid.
Qed.

Lemma invalid_continuation_pos s k :
  utf8_decode s = InvalidContinuation k -> (1 <= k)%nat.
Proof.
  unfold utf8_decode.
  repeat (case_match; try discriminate); intros [= <-]; lia.
Qed.

Lemma decode_loop_step fuel h c s :
  decode_loop (S fuel) h (c :: s) =
  match utf8_decode (c :: s) with
  | Decoded ch n =>
      match decode_loop fuel h (drop n (c :: s)) with
      | inr t => inr (ch :: t)
      | inl m => inl m
      end
  | e =>
      match h with
      | strict => inl (errmsg e)
      | ignore => decode_loop fuel h (drop (error_range e (c :: s)) (c :: s))
      | replace =>
          match decode_loop fuel h (drop (error_range e (c :: s)) (c :: s)) with
          | inr t => inr (0xFFFD :: t)
          | inl m => inl m
          end
      end
  end.
Proof. reflexivity. Qed.


Lemma decode_loop_ignore fuel : forall s,
  Forall is_byte s -> (length s <= fuel)%nat ->
  exists t bs, decode_loop fuel ignore s = inr t
               /\ encode_text t = Some bs /\ sublist bs s.
Proof.
  induction fuel as [|fuel IH]; intros s Hs Hlen.
  - destruct s; [|simpl in Hlen; lia].
    exists [], []. repeat split. constructor.
  - destruct s as [|c s'].
    { exists [], []. repeat split. constructor. }
    assert (Hskip : forall k, (1 <= k)%nat ->
              exists t bs, decode_loop fuel ignore (drop k (c :: s')) = inr t
                           /\ encode_text t = Some bs /\ sublist bs (c :: s')).
    { intros k Hk.
      destruct (IH (drop k (c :: s'))) as (t & bs & Ht & Hbs & Hsub).
      - now apply Forall_drop.
      - rewrite length_drop. simpl in *. lia.
      - exists t, bs. repeat split; auto.
        etransitivity; [exact Hsub | apply sublist_drop]. }
    rewrite decode_loop_step.
    destruct (utf8_decode (c :: s')) as [ch n| | |k] eqn:E.
    + destruct (utf8_decode_sound _ _ _ Hs E) as [Hn Henc].
      destruct (IH (drop n (c :: s'))) as (t & bs & Ht & Hbs & Hsub).
      * now apply Forall_drop.
      * rewrite length_drop. simpl in *. lia.
      * exists (ch :: t), (take n (c :: s') ++ bs)%list.
        rewrite Ht. repeat split.
        -- simpl. now rewrite Henc, Hbs.
        -- rewrite <- (take_drop n (c :: s')) at 2.
           now apply sublist_app.
    + apply Hskip. simpl. lia.
    + apply Hskip. simpl. lia.
    + apply Hskip. simpl. eapply invalid_continuation_pos, E.
Qed.

Lemma decode_loop_strict_ignore fuel : forall s t,
  decode_loop fuel strict s = inr t -> decode_loop fuel ignore s = inr t.
Proof.
  induction fuel as [|fuel IH]; intros s t H.
  - destruct s; exact H.
  - destruct s as [|c s']; [exact H|].
    rewrite decode_loop_step in *.
    destruct (utf8_decode (c :: s')) as [ch n| | |k]; try discriminate.
    destruct (decode_loop fuel strict _) as [m|t'] eqn:E; [discriminate|].
    now rewrite (IH _ _ E).
Qed.

Lemma decode_ignore data :
  exists text bs,
    decode data ignore = inr text
    /\ encode_text text = Some bs
    /\ sublist bs (map Z_of_byte data).
Proof.
  apply decode_loop_ignore; [apply bytes_range | now rewrite length_map].
Qed.

End Utf8Decode.

(** ** The connection handler *)

Lemma banner_cases p :
  service_banners !! p = None
  \/ exists banner, service_banners !! p = Some banner
       /\ Py.truthy banner = true
       /\ Utf8.encode banner = Some (list_byte_of_string banner).
Proof.
  unfold service_banners.
  destruct (decide (p = 21)) as [->|H21].
  { right. eexists. rewrite lookup_insert_eq. repeat split. }
  rewrite lookup_insert_ne by congruence.
  destruct (decide (p = 22)) as [->|H22].
  { right. eexists. rewrite lookup_insert_eq. repeat split. }
  rewrite lookup_insert_ne by congruence.
  destruct (decide (p = 80)) as [->|H80].
  { right. eexists. rewrite lookup_insert_eq. repeat split. }
  rewrite lookup_insert_ne by congruence.
  destruct (decide (p = 443)) as [->|H443].
  { right. eexists. rewrite lookup_singleton_eq. repeat split. }
  left. now rewrite lookup_singleton_ne by congruence.
Qed.

Lemma log_activity_spec self p ip d w st :
  exists text,
    Utf8.decode d Utf8.ignore = inr text
    /\ log_activity self p ip d w st =
       ({| sends := sends st; writes := S (writes st); ticks := S (ticks st);
           trace := (trace st
                     ++ Append (log_file self)
                          {| timestamp := clock w (ticks st); remote_ip := ip;
                             port := p; data := text |}
                          (write_result w (writes st))
                     :: failure_line (write_result w (writes st)))%list |},
        Ret tt).
Proof.
  destruct (decode_ignore d) as (text & bs & Hd & _).
  exists text. split; [exact Hd|].
  unfold log_activity, mbind, M_bind, bind, now.
  rewrite Hd. unfold ret, try_except, append_log, print, emit. simpl.
  destruct (write_result w (writes st)); simpl; [|reflexivity].
  now rewrite <- app_assoc.
Qed.

Lemma recv_loop_step self ip p r rest w st :
  recv_loop self ip p (r :: rest) w st =
  match r with
  | inl e => (emit (Recv r) st, Raise e)
  | inr [] => (emit (Recv r) st, Ret tt)
  | inr d =>
      match log_activity self p ip d w (emit (Recv r) st) with
      | (st1, Ret _) =>
          match sendall reply w st1 with
          | (st2, Ret _) => recv_loop self ip p rest w st2
          | (st2, Raise e) => (st2, Raise e)
          | (st2, Wait) => (st2, Wait)
          end
      | (st1, Raise e) => (st1, Raise e)
      | (st1, Wait) => (st1, Wait)
      end
  end.
Proof. destruct r as [e|[|b d]]; reflexivity. Qed.

Lemma recv_loop_trace self ip p w : forall inbound st,
  exists ext st' r,
    recv_loop self ip p inbound w st = (st', r)
    /\ trace st' = (trace st ++ ext)%list
    /\ loop_trace self ip p ext r.
Proof.
  induction inbound as [|r rest IH]; intros st.
  - exists [], st, Wait. repeat split; [now rewrite app_nil_r | constructor].
  - rewrite recv_loop_step.
    destruct r as [e|[|b d]].
    + exists [Recv (inl e)], (emit (Recv (inl e)) st), (Raise e).
      repeat split. constructor.
    + exists [Recv (inr [])], (emit (Recv (inr [])) st), (Ret tt).
      repeat split. constructor.
    + destruct (log_activity_spec self p ip (b :: d) w (emit (Recv (inr (b :: d))) st))
        as (text & Hd & ->).
      unfold sendall at 1. cbn [sends writes ticks trace emit].
      destruct (send_result w (sends st)) as [e|] eqn:Hs.
      * eexists _, _, (Raise e). split; [reflexivity|].
        split; [|eapply loop_send_error with (d := b :: d); [discriminate | exact Hd]].
        cbn [trace emit]. rewrite <- !app_assoc. reflexivity.
      * match goal with |- context [recv_loop _ _ _ rest w ?s] =>
          destruct (IH s) as (ext & st' & r & Hr & Htr & Hlt) end.
        exists (Recv (inr (b :: d))
                :: Append (log_file self)
                     {| timestamp := clock w (ticks st); remote_ip := ip;
                        port := p; data := text |} (write_result w (writes st))
                :: failure_line (write_result w (writes st))
                ++ Sendall reply None :: ext)%list, st', r.
        split; [exact Hr|]. split.
        -- rewrite Htr. cbn [trace emit]. rewrite <- !app_assoc. reflexivity.
        -- apply loop_round; [discriminate | exact Hd | exact Hlt].
Qed.

Lemma handle_connection_shape self inbound ip p w st :
  exists st' pre ext r,
    handle_connection self inbound ip p w st = (st', outcome r)
    /\ trace st' = (trace st ++ pre ++ ext ++ epilogue p r)%list
    /\ handler_shape self ip p pre ext r.
Proof.
  unfold handle_connection, try_finally, try_except, mbind, M_bind, bind.
  destruct (banner_cases p) as [Hnone | (banner & Hb & Ht & Henc)].
  - rewrite Hnone. unfold ret at 1.
    destruct (recv_loop_trace self ip p w inbound st) as (ext & st' & r & -> & Htr & Hlt).
    destruct r as [[]|e|]; unfold print, close, emit; cbn [trace].
    + eexists _, [], ext, (Ret tt). repeat split; [|now constructor].
      cbn [trace epilogue app]. now rewrite Htr, <- app_assoc.
    + eexists _, [], ext, (Raise e). repeat split; [|now constructor].
      cbn [trace epilogue app]. rewrite Htr, <- !app_assoc. reflexivity.
    + eexists _, [], ext, Wait. repeat split; [|now constructor].
      cbn [trace epilogue app]. now rewrite Htr, app_nil_r.
  - rewrite Hb, Ht. unfold encode_banner. rewrite Henc. unfold ret at 1.
    unfold sendall at 1.
    destruct (send_result w (sends st)) as [e|].
    + unfold print, close, emit; cbn [trace].
      eexists _, [Sendall (list_byte_of_string banner) (Some e)], [], (Raise e).
      repeat split; [|econstructor; exact Hb].
      cbn [trace epilogue app]. rewrite <- !app_assoc. reflexivity.
    + match goal with |- context [recv_loop _ _ _ inbound w ?s] =>
        destruct (recv_loop_trace self ip p w inbound s)
          as (ext & st' & r & -> & Htr & Hlt) end.
      cbn [trace emit] in Htr.
      destruct r as [[]|e|]; unfold print, close, emit; cbn [trace].
      * eexists _, [Sendall (list_byte_of_string banner) None], ext, (Ret tt).
        repeat split; [|econstructor; eauto].
        cbn [trace epilogue app]. rewrite Htr, <- !app_assoc. reflexivity.
      * eexists _, [Sendall (list_byte_of_string banner) None], ext, (Raise e).
        repeat split; [|econstructor; eauto].
        cbn [trace epilogue app]. rewrite Htr, <- !app_assoc. reflexivity.
      * eexists _, [Sendall (list_byte_of_string banner) None], ext, Wait.
        repeat split; [|econstructor; eauto].
        cbn [trace epilogue app]. rewrite Htr, app_nil_r, <- !app_assoc. reflexivity.
Qed.

Lemma loop_trace_head self ip p ext r :
  loop_trace self ip p ext r ->
  match ext with
  | [] => r = Wait
  | e :: _ => is_recv e = true
  end.
Proof. destruct 1; reflexivity. Qed.

Lemma failure_line_no_close r : Close ∉ failure_line r.
Proof.
  destruct r; simpl; rewrite ?not_elem_of_cons;
    repeat split; try discriminate; apply not_elem_of_nil.
Qed.

Lemma loop_trace_no_close self ip p ext r :
  loop_trace self ip p ext r -> Close ∉ ext.
Proof.
  induction 1;
    rewrite ?not_elem_of_cons, ?not_elem_of_app, ?not_elem_of_cons;
    repeat split; try discriminate;
    auto using failure_line_no_close, not_elem_of_nil.
Qed.

Lemma loop_trace_end self ip p ext r :
  loop_trace self ip p ext r ->
  match r with
  | Ret _ => exists b0, ext = (b0 ++ [Recv (inr [])])%list
  | Raise e =>
      (exists b0, ext = (b0 ++ [Recv (inl e)])%list)
      \/ (exists b0 payload, ext = (b0 ++ [Sendall payload (Some e)])%list)
  | Wait => True
  end.
Proof.
  induction 1.
  - exact I.
  - now exists [].
  - left. now exists [].
  - right. eexists (_ :: _ :: failure_line r1), reply.
    simpl. reflexivity.
  - destruct r as [[]|e|]; [| |exact I].
    + destruct IHloop_trace as [b0 ->].
      eexists (_ :: _ :: failure_line r1 ++ _ :: b0)%list.
      simpl. rewrite <- app_assoc. reflexivity.
    + destruct IHloop_trace as [[b0 ->]|(b0 & payload & ->)]; [left|right].
      * eexists (_ :: _ :: failure_line r1 ++ _ :: b0)%list.
        simpl. rewrite <- app_assoc. reflexivity.
      * eexists (_ :: _ :: failure_line r1 ++ _ :: b0)%list, payload.
        simpl. rewrite <- app_assoc. reflexivity.
Qed.






(** C2.  On ports 21, 22, 80 and 443 the first thing the handler does is
    to send that port's banner, byte for byte, before any read; on every
    other port the first thing it does is a read, so nothing is sent
    before it. *)
Theorem banner_before_first_read self inbound ip w :
  let run p := trace (fst (handle_connection self inbound ip p w initial)) in
  (exists r rest,
     run 21 = Sendall (list_byte_of_string ("220 FTP server ready" ++ CRLF)) r :: rest)
  /\ (exists r rest,
        run 22 = Sendall (list_byte_of_string
                            ("SSH-2.0-OpenSSH_8.2p1 Ubuntu-4ubuntu0.1" ++ CRLF)) r
                 :: rest)
  /\ (exists r rest,
        run 80 = Sendall (list_byte_of_string
                            ("HTTP/1.1 200 OK" ++ CRLF
                             ++ "Server: Apache/2.4.41 (Ubuntu)" ++ CRLF ++ CRLF)) r
                 :: rest)
  /\ (exists r rest,
        run 443 = Sendall (list_byte_of_string
                             ("HTTP/1.1 200 OK" ++ CRLF
                              ++ "Server: Apache/2.4.41 (Ubuntu)" ++ CRLF ++ CRLF)) r
                  :: rest)
  /\ (forall p, p <> 21 -> p <> 22 -> p <> 80 -> p <> 443 ->
      match run p with
      | [] => True
      | e :: _ => is_recv e = true
      end).
Proof.
  intros run.
  assert (Hb : forall p banner, service_banners !! p = Some banner ->
               exists r rest, run p = Sendall (list_byte_of_string banner) r :: rest).
  { intros p banner Hb. unfold run.
    destruct (handle_connection_shape self inbound ip p w initial)
      as (st' & pre0 & ext & r & -> & Htr & Hshape).
    cbn [fst]. rewrite Htr. cbn [trace initial app].
    destruct Hshape as [ext r Hnone _|banner' ext r Hb' _|banner' e Hb'].
    - congruence.
    - rewrite Hb in Hb'. injection Hb' as <-. eauto.
    - rewrite Hb in Hb'. injection Hb' as <-. eauto. }
  repeat split; try (apply Hb; reflexivity).
  intros p H21 H22 H80 H443. unfold run.
  destruct (handle_connection_shape self inbound ip p w initial)
    as (st' & pre0 & ext & r & -> & Htr & Hshape).
  cbn [fst]. rewrite Htr. cbn [trace initial app].
  assert (Hnone : service_banners !! p = None).
  { unfold service_banners.
    rewrite !lookup_insert_ne by congruence.
    now rewrite lookup_singleton_ne by congruence. }
  destruct Hshape as [ext r _ Hlt|banner ext r Hb' _|banner e Hb']; try congruence.
  simpl. apply loop_trace_head in Hlt.
  destruct ext as [|e ext]; [subst r; exact I | exact Hlt].
Qed.

(** Whenever the handler returns, the socket has been closed exactly once,
    as its last action; it never raises, and while it waits in [recv] the
    socket is not closed. *)
Lemma handler_closes_on_return self inbound ip p w :
  let '(st, r) := handle_connection self inbound ip p w initial in
  match r with
  | Ret _ =>
      exists body, trace st = (body ++ [Close])%list /\ Close ∉ body
        /\ ((exists b0, body = (b0 ++ [Recv (inr [])])%list)
            \/ (exists b0 e line, body = (b0 ++ [Recv (inl e); Print line])%list)
            \/ (exists b0 payload e line,
                  body = (b0 ++ [Sendall payload (Some e); Print line])%list))
  | Raise _ => False
  | Wait => Close ∉ trace st
  end.
Proof.
  destruct (handle_connection_shape self inbound ip p w initial)
    as (st' & pre0 & ext & r & -> & Htr & Hshape).
  rewrite Htr. cbn [trace initial app]. clear Htr.
  assert (Hpre : Close ∉ pre0).
  { destruct Hshape; rewrite ?not_elem_of_cons; repeat split;
      try discriminate; apply not_elem_of_nil. }
  assert (Hext : Close ∉ ext).
  { destruct Hshape; eauto using loop_trace_no_close, not_elem_of_nil. }
  destruct r as [[]|e|]; cbn [outcome epilogue].
  - exists (pre0 ++ ext)%list. split; [now rewrite app_assoc|].
    split; [now apply not_elem_of_app|].
    left. inversion Hshape as [? ? _ Hlt|? ? ? _ Hlt|]; subst;
      apply loop_trace_end in Hlt as [b0 ->].
    + now exists b0.
    + eexists (_ :: b0). reflexivity.
  - eexists (pre0 ++ ext ++ [Print _])%list.
    split; [now rewrite <- !app_assoc|].
    split.
    { rewrite !not_elem_of_app, not_elem_of_cons.
      repeat split; auto; try discriminate; apply not_elem_of_nil. }
    right.
    inversion Hshape as [? ? _ Hlt|? ? ? _ Hlt|]; subst.
    + apply loop_trace_end in Hlt as [[b0 ->]|(b0 & payload & ->)]; [left|right].
      * exists b0, e. eexists. simpl. now rewrite <- app_assoc.
      * exists b0, payload, e. eexists. simpl. now rewrite <- app_assoc.
    + apply loop_trace_end in Hlt as [[b0 ->]|(b0 & payload & ->)]; [left|right].
      * eexists (_ :: b0), e. eexists. simpl. now rewrite <- app_assoc.
      * eexists (_ :: b0), payload, e. eexists. simpl. now rewrite <- app_assoc.
    + right. exists [], (list_byte_of_string banner), e. eexists. reflexivity.
  - rewrite app_nil_r. now apply not_elem_of_app.
Qed.

(** ** The log sink *)

(** C3 (as amended).  The [data] field of the record is the received bytes
    decoded with [errors='ignore']: decoding never fails, and the bytes
    that are not valid UTF-8 are dropped, not replaced: the text, encoded
    again, is the input with some bytes deleted, and it is the strict
    decoding whenever that exists. *)
Theorem logged_text_drops_undecodable_bytes self p ip d w st :
  exists st' text bs,
    log_activity self p ip d w st = (st', Ret tt)
    /\ In (Append (log_file self)
             {| timestamp := clock w (ticks st); remote_ip := ip; port := p;
                data := text |} (write_result w (writes st)))
          (trace st')
    /\ Utf8.decode d Utf8.ignore = inr text
    /\ Utf8.encode_text text = Some bs
    /\ sublist bs (map Utf8.Z_of_byte d)
    /\ match Utf8.decode d Utf8.strict with
       | inr t => text = t
       | inl _ => True
       end.
Proof.
  destruct (log_activity_spec self p ip d w st) as (text & Hd & Hlog).
  destruct (decode_ignore d) as (text' & bs & Hd' & Hbs & Hsub).
  assert (text' = text) as -> by congruence.
  eexists _, text, bs. split; [exact Hlog|].
  split; [cbn [trace]; apply in_or_app; right; now left|].
  repeat split; auto.
  destruct (Utf8.decode d Utf8.strict) as [m|t] eqn:Hs; [exact I|].
  apply decode_loop_strict_ignore in Hs. unfold Utf8.decode in Hd. congruence.
Qed.

(** C3, as stated, fails on [b"a\xffb"]: the input is not valid UTF-8,
    replacement would log [a], U+FFFD, [b], and the record holds [ab]. *)
Lemma replacement_counterexample :
  Utf8.decode stray_byte_chunk Utf8.strict = inl "invalid start byte"
  /\ Utf8.decode stray_byte_chunk Utf8.replace = inr [0x61; 0xFFFD; 0x62]
  /\ Utf8.decode stray_byte_chunk Utf8.ignore = inr [0x61; 0x62]
  /\ trace (fst (log_activity sample 22 peer stray_byte_chunk calm initial))
     = [Append "honeypot_logs/honeypot_20240101.json"
          {| timestamp := "2024-01-01T12:00:00.000000"; remote_ip := peer;
             port := 22; data := [0x61; 0x62] |} None].
Proof. repeat split. Qed.

(** C4.  When the append to the log file fails, [log_activity] returns
    normally after printing the failure, and the receive loop goes on with
    the reply and the next read as it does after a successful append. *)
Theorem log_failure_is_contained self ip p d w st e :
  write_result w (writes st) = Some e ->
  exists st1 entry,
    log_activity self p ip d w st = (st1, Ret tt)
    /\ trace st1
       = (trace st
          ++ [Append (log_file self) entry (Some e);
              Print ("[!] Failed to write log entry: " ++ str_of_exn e)])%list
    /\ (forall rest st0,
          d <> [] -> st = emit (Recv (inr d)) st0 ->
          recv_loop self ip p (inr d :: rest) w st0
          = (sendall reply ≫= fun _ => recv_loop self ip p rest) w st1).
Proof.
  intros Hw.
  destruct (log_activity_spec self p ip d w st) as (text & Hd & Hlog).
  rewrite Hw in Hlog. eexists _, _. split; [exact Hlog|].
  split; [reflexivity|].
  intros rest st0 Hne ->.
  rewrite recv_loop_step.
  destruct d as [|b d]; [congruence|].
  rewrite Hlog. reflexivity.
Qed.

(** ** The listener *)

Lemma accept_loop_failure p e rest w : forall oks st,
  exists st' body,
    accept_loop p (map inr oks ++ inl e :: rest) w st = (st', Raise e)
    /\ trace st' = (trace st ++ body ++ [Accept (inl e)])%list
    /\ length (List.filter is_accept body) = length oks.
Proof.
  induction oks as [|[client [rip rport]] oks IH]; intros st.
  - exists (emit (Accept (inl e)) st), []. repeat split.
  - cbn [map app accept_loop].
    unfold mbind, M_bind, bind, accept, print, start. cbn [emit trace].
    match goal with |- context [accept_loop p _ w ?s] =>
      destruct (IH s) as (st' & body & -> & Htr & Hlen) end.
    cbn [emit trace] in Htr.
    eexists st', (_ :: _ :: _ :: body). split; [reflexivity|]. split.
    + rewrite Htr, <- !app_assoc. reflexivity.
    + simpl. now rewrite Hlen.
Qed.

(** C6 (as amended).  When an [accept] call fails, whatever the failure,
    the listener prints the error and returns: it has accepted the
    connections that came before and never calls [accept] again. *)
Theorem accept_failure_ends_listener self p oks e rest w st :
  exists st' body,
    start_listener self p None (map inr oks ++ inl e :: rest) w st = (st', Ret tt)
    /\ trace st'
       = (trace st ++ body
          ++ [Accept (inl e);
              Print ("[!] Error starting listener on port " ++ Py.str_of_int p
                     ++ ": " ++ str_of_exn e)])%list
    /\ length (List.filter is_accept body) = length oks.
Proof.
  unfold start_listener, try_except, mbind, M_bind, bind, listen, print.
  match goal with |- context [accept_loop p _ w ?s] =>
    destruct (accept_loop_failure p e rest w oks s)
      as (st' & body & -> & Htr & Hlen) end.
  cbn [emit trace] in *.
  eexists _, (_ :: _ :: body). split; [reflexivity|]. split.
  - cbn [emit trace]. rewrite Htr, <- !app_assoc. reflexivity.
  - simpl. exact Hlen.
Qed.

(** C6, as stated, fails when the first [accept] fails and a second
    connection is pending: the listener returns without accepting it. *)
Lemma accept_retry_counterexample :
  start_listener sample 21 None
    [inl (OSError "[Errno 24] Too many open files");
     inr (7%nat, (peer, 40000))] calm initial
  = ({| sends := 0; writes := 0; ticks := 0;
        trace := [Listen "0.0.0.0" 21 None;
                  Print "[*] Listening on 0.0.0.0:21";
                  Accept (inl (OSError "[Errno 24] Too many open files"));
                  Print "[!] Error starting listener on port 21: [Errno 24] Too many open files"] |},
     Ret tt).
Proof. reflexivity. Qed.

(** ** The port list *)

Lemma split_nonempty sep s : exists h t, Py.split sep s = h :: t.
Proof.
  destruct s as [|c s]; simpl; [eauto|].
  destruct (Ascii.eqb c sep); [eauto|].
  destruct (Py.split sep s); eauto.
Qed.

Lemma split_app sep a b :
  Py.split sep (a ++ String sep b) = (Py.split sep a ++ Py.split sep b)%list.
Proof.
  induction a as [|c a IH]; simpl.
  - now rewrite Ascii.eqb_refl.
  - destruct (Ascii.eqb c sep); [now rewrite IH|].
    rewrite IH. destruct (split_nonempty sep a) as (h & t & ->). reflexivity.
Qed.

Lemma lstrip_fixed s : Py.strip s = "" -> Py.lstrip s = "".
Proof.
  unfold Py.strip. induction s as [|c s IH]; simpl; [reflexivity|].
  destruct (Py.Py_UNICODE_ISSPACE c) eqn:Hc; [exact IH|].
  simpl. destruct (Py.rstrip s); [now rewrite Hc | discriminate].
Qed.

Lemma space_not_comma c :
  Py.Py_UNICODE_ISSPACE c = true -> Ascii.eqb c ","%char = false.
Proof.
  destruct (Ascii.eqb_spec c ","%char) as [->|]; [discriminate|reflexivity].
Qed.

Lemma blank_split w : Py.strip w = "" -> Py.split ","%char w = [w].
Proof.
  intros H. apply lstrip_fixed in H.
  induction w as [|c w IH]; [reflexivity|].
  simpl in *. destruct (Py.Py_UNICODE_ISSPACE c) eqn:Hc; [|discriminate].
  now rewrite (space_not_comma _ Hc), (IH H).
Qed.

(** C10.  An entry of the override that is empty or holds only white
    space is skipped: putting one between two commas does not change the
    parsed list, and ["21,,80"] and ["21, ,80"] give the ports
    [[21; 80]] with nothing printed. *)
Theorem blank_entries_are_skipped :
  (forall a w b,
      Py.strip w = "" ->
      comprehension (a ++ "," ++ w ++ "," ++ b) = comprehension (a ++ "," ++ b))
  /\ init_ports None (Some "21,,80") = ([21; 80], [])
  /\ init_ports None (Some "21, ,80") = ([21; 80], []).
Proof.
  split; [|split; reflexivity].
  intros a w b Hw. unfold comprehension.
  change ("," ++ w ++ "," ++ b) with (String ","%char (w ++ String ","%char b)).
  change ("," ++ b) with (String ","%char b).
  rewrite !split_app, (blank_split w Hw), !List.filter_app.
  simpl. now rewrite Hw.
Qed.

(** C5 (as amended).  An override with an entry that is not blank and that
    [int] rejects makes the constructor print a warning and use the
    default ports; an empty or unset override gives the default ports
    with nothing printed. *)
Theorem invalid_override_falls_back :
  (forall env_ports p,
      In p (Py.split ","%char env_ports) ->
      Py.truthy (Py.strip p) = true ->
      Py.int p = None ->
      init_ports None (Some env_ports)
      = (DEFAULT_PORTS, ["Invalid HONEYPOT_PORTS value: " ++ env_ports]))
  /\ init_ports None (Some "") = (DEFAULT_PORTS, [])
  /\ init_ports None None = (DEFAULT_PORTS, []).
Proof.
  split; [|split; reflexivity].
  intros env_ports p Hin Hp Hint. unfold init_ports.
  destruct env_ports as [|c s].
  { simpl in Hin. destruct Hin as [<-|[]]. discriminate Hp. }
  cbn [Py.truthy].
  destruct (comprehension (String c s)) as [ps|] eqn:Hc; [|reflexivity].
  exfalso. unfold comprehension in Hc.
  assert (His : is_Some (mapM Py.int
            (List.filter (fun p => Py.truthy (Py.strip p))
               (Py.split ","%char (String c s))))) by (rewrite Hc; eauto).
  rewrite mapM_is_Some, Forall_forall in His.
  destruct (His p) as [z Hz].
  - apply list_elem_of_In, filter_In. auto.
  - simpl in Hz. congruence.
Qed.

(** C5, as stated, fails on the empty override, which prints no warning,
    and on an override of blank entries, which gives an empty port list
    without a warning. *)
Lemma override_fallback_counterexample :
  init_ports None (Some "") = (DEFAULT_PORTS, [])
  /\ init_ports None (Some " , ") = ([], []).
Proof. split; reflexivity. Qed.

(** C8, as stated, fails on the override ["0,80,80,70000"]: the list keeps
    the duplicate and the numbers outside 1..65535. *)
Lemma distinct_ports_counterexample :
  let ps := fst (init_ports None (Some "0,80,80,70000")) in
  ps = [0; 80; 80; 70000]
  /\ ~ NoDup ps
  /\ ~ Forall (fun p => 1 <= p <= 65535) ps.
Proof.
  cbv zeta. change (fst (init_ports None (Some "0,80,80,70000")))
    with [0; 80; 80; 70000].
  split; [reflexivity|]. split.
  - intros H. apply NoDup_cons in H as [_ H]. apply NoDup_cons in H as [H _].
    apply H. now left.
  - intros H. apply Forall_cons in H as [H _]. lia.
Qed.

(** ** The statements on the sample runs *)


Lemma banner_before_first_read_witness :
  match trace (fst (handle_connection sample [inr ls_chunk] peer 8080 calm initial)) with
  | [] => True
  | e :: _ => is_recv e = true
  end.
Proof.
  apply (banner_before_first_read sample [inr ls_chunk] peer calm); lia.
Defined.

Lemma log_failure_is_contained_witness :
  exists st1 entry,
    log_activity sample 22 peer ls_chunk disk_full (emit (Recv (inr ls_chunk)) initial)
    = (st1, Ret tt)
    /\ trace st1
       = [Recv (inr ls_chunk);
          Append (log_file sample) entry
            (Some (OSError "[Errno 28] No space left on device"));
          Print "[!] Failed to write log entry: [Errno 28] No space left on device"]
    /\ (forall rest st0,
          ls_chunk <> [] -> emit (Recv (inr ls_chunk)) initial = emit (Recv (inr ls_chunk)) st0 ->
          recv_loop sample peer 22 (inr ls_chunk :: rest) disk_full st0
          = (sendall reply ≫= fun _ => recv_loop sample peer 22 rest) disk_full st1).
Proof.
  apply (log_failure_is_contained sample peer 22 ls_chunk disk_full
           (emit (Recv (inr ls_chunk)) initial)
           (OSError "[Errno 28] No space left on device")).
  reflexivity.
Defined.

Lemma invalid_override_falls_back_witness :
  init_ports None (Some "21,abc")
  = (DEFAULT_PORTS, ["Invalid HONEYPOT_PORTS value: 21,abc"]).
Proof.
  apply (proj1 invalid_override_falls_back "21,abc" "abc").
  - simpl. auto.
  - reflexivity.
  - reflexivity.
Defined.

Lemma blank_entries_are_skipped_witness :
  comprehension ("21" ++ "," ++ " " ++ "," ++ "80") = comprehension ("21" ++ "," ++ "80").
Proof.
  apply (proj1 blank_entries_are_skipped "21" " " "80"). reflexivity.
Defined.

(** ** The built-ins on small inputs *)

Example int_examples :
  map Py.int ["21"; " 21 "; "+21"; "-0"; "1_0"; "007"]
  = [Some 21; Some 21; Some 21; Some 0; Some 10; Some 7]
  /\ map Py.int [""; "  "; "_1"; "1_"; "1__0"; "0x10"; "+"; "2 1"; "abc"]
     = [None; None; None; None; None; None; None; None; None].
Proof. split; vm_compute; reflexivity. Qed.

Example split_examples :
  Py.split ","%char "21,,80" = ["21"; ""; "80"]
  /\ Py.split ","%char "" = [""]
  /\ Py.split ","%char " , " = [" "; " "].
Proof. repeat split. Qed.

Example decode_examples :
  map (fun b => Utf8.decode (map Utf8.byte_of_Z b) Utf8.ignore)
    [[0xE2; 0x82; 0xAC]; [0xF0; 0x9F; 0x98; 0x80]; [0xE2; 0x82];
     [0xED; 0xA0; 0x80]; [0xC0; 0x80]; [0xE2; 0x28; 0xA1]]
  = [inr [0x20AC]; inr [0x1F600]; inr []; inr []; inr []; inr [0x28]]
  /\ map (fun b => Utf8.decode (map Utf8.byte_of_Z b) Utf8.replace)
       [[0xE2; 0x82]; [0xED; 0xA0; 0x80]; [0xE2; 0x28; 0xA1]]
     = [inr [0xFFFD]; inr [0xFFFD; 0xFFFD; 0xFFFD]; inr [0xFFFD; 0x28; 0xFFFD]].
Proof. split; vm_compute; reflexivity. Qed.

Example session_on_port_22 :
  handle_connection sample [inr ls_chunk; inr []] peer 22 calm initial
  = ({| sends := 2; writes := 1; ticks := 1;
        trace := [Sendall (list_byte_of_string
                             ("SSH-2.0-OpenSSH_8.2p1 Ubuntu-4ubuntu0.1" ++ CRLF)) None;
                  Recv (inr ls_chunk);
                  Append "honeypot_logs/honeypot_20240101.json"
                    {| timestamp := "2024-01-01T12:00:00.000000";
                       remote_ip := peer; port := 22;
                       data := [108; 115; 10] |} None;
                  Sendall reply None;
                  Recv (inr []);
                  Close] |},
     Ret tt).
Proof. vm_compute. reflexivity. Qed.

Example exit_on_read_error :
  handle_connection sample [inl (OSError "[Errno 104] Connection reset by peer")]
    peer 8080 calm initial
  = ({| sends := 0; writes := 0; ticks := 0;
        trace := [Recv (inl (OSError "[Errno 104] Connection reset by peer"));
                  Print "[!] Error handling connection on port 8080: [Errno 104] Connection reset by peer";
                  Close] |},
     Ret tt).
Proof. vm_compute. reflexivity. Qed.

Example exit_on_banner_failure :
  handle_connection sample [inr ls_chunk] peer 21 broken_pipe initial
  = ({| sends := 1; writes := 0; ticks := 0;
        trace := [Sendall (list_byte_of_string ("220 FTP server ready" ++ CRLF))
                    (Some (OSError "[Errno 32] Broken pipe"));
                  Print "[!] Error handling connection on port 21: [Errno 32] Broken pipe";
                  Close] |},
     Ret tt).
Proof. vm_compute. reflexivity. Qed.

Example exit_on_reply_failure :
  handle_connection sample [inr ls_chunk; inr ls_chunk] peer 8080 broken_pipe initial
  = ({| sends := 1; writes := 1; ticks := 1;
        trace := [Recv (inr ls_chunk);
                  Append "honeypot_logs/honeypot_20240101.json"
                    {| timestamp := "2024-01-01T12:00:00.000000";
                       remote_ip := peer; port := 8080;
                       data := [108; 115; 10] |} None;
                  Sendall reply (Some (OSError "[Errno 32] Broken pipe"));
                  Print "[!] Error handling connection on port 8080: [Errno 32] Broken pipe";
                  Close] |},
     Ret tt).
Proof. vm_compute. reflexivity. Qed.

Example waiting_for_the_peer :
  handle_connection sample [] peer 8080 calm initial = (initial, Wait).
Proof. reflexivity. Qed.

(** ** Further properties: the port list and the built-ins *)

Lemma join_cons sep p q rest :
  join sep (p :: q :: rest) = p ++ String sep (join sep (q :: rest)).
Proof. reflexivity. Qed.

Lemma join_push sep c h t :
  join sep (String c h :: t) = String c (join sep (h :: t)).
Proof. destruct t; reflexivity. Qed.

Lemma join_split sep s :
  join sep (Py.split sep s) = s
  /\ Forall (fun p => ~ In sep (chars p)) (Py.split sep s).
Proof.
  induction s as [|c s [IHj IHf]]; simpl.
  - split; [reflexivity|]. repeat constructor. simpl. tauto.
  - destruct (Ascii.eqb_spec c sep) as [->|Hne].
    + destruct (split_nonempty sep s) as (h & t & E). rewrite E in *.
      split; [now rewrite join_cons, IHj|].
      constructor; [simpl; tauto | exact IHf].
    + destruct (split_nonempty sep s) as (h & t & E). rewrite E in *.
      split; [now rewrite join_push, IHj|].
      apply Forall_cons in IHf as [Hh Ht]. constructor; [|exact Ht].
      simpl. intros [->|Hin]; [congruence | contradiction].
Qed.

Lemma split_plain sep p : ~ In sep (chars p) -> Py.split sep p = [p].
Proof.
  induction p as [|c p IH]; simpl; intros H; [reflexivity|].
  destruct (Ascii.eqb_spec c sep) as [->|Hne]; [tauto|].
  rewrite IH by tauto. reflexivity.
Qed.

Lemma split_join sep pieces :
  pieces <> [] ->
  Forall (fun p => ~ In sep (chars p)) pieces ->
  Py.split sep (join sep pieces) = pieces.
Proof.
  induction pieces as [|p [|q rest] IH]; intros Hne Hf.
  - congruence.
  - apply Forall_cons in Hf as [Hp _]. simpl. now apply split_plain.
  - apply Forall_cons in Hf as [Hp Hf].
    rewrite join_cons, split_app, (split_plain _ _ Hp), IH by (auto; discriminate).
    reflexivity.
Qed.

Lemma lstrip_spaces s :
  Py.lstrip s = "" <-> forallb Py.Py_UNICODE_ISSPACE (chars s) = true.
Proof.
  induction s as [|c s IH]; simpl; [tauto|].
  destruct (Py.Py_UNICODE_ISSPACE c); simpl; [exact IH|].
  split; discriminate.
Qed.

Lemma uval_pos u : forall acc, uval u (Z.pos acc) = Z.pos (Pos.of_uint_acc u acc).
Proof.
  induction u; intros acc; cbn [uval Pos.of_uint_acc]; [reflexivity|..];
    rewrite <- IHu; f_equal; lia.
Qed.

Lemma uval_zero u : uval u 0 = Z.of_N (Pos.of_uint u).
Proof.
  induction u; cbn [uval Pos.of_uint]; [reflexivity|..];
    try (cbn [N.to_nat Z.of_N]; rewrite <- uval_pos; f_equal; lia).
  exact IHu.
Qed.

Lemma scan_digits u : forall acc k,
  Py.scan (NilEmpty.string_of_uint u) false acc k
  = Some (uval u acc, (k + Decimal.nb_digits u)%nat, "").
Proof.
  induction u; intros acc k; cbn [NilEmpty.string_of_uint uval Decimal.nb_digits];
    [simpl; now rewrite Nat.add_0_r|..];
    (etransitivity; [apply IHu|]); now rewrite Nat.add_succ_r.
Qed.

Lemma transform_digits u :
  Py.transform (NilEmpty.string_of_uint u) = NilEmpty.string_of_uint u.
Proof. induction u; simpl; [reflexivity|..]; now rewrite IHu. Qed.

Lemma length_digits u :
  String.length (NilEmpty.string_of_uint u) = Decimal.nb_digits u.
Proof. induction u; simpl; [reflexivity|..]; now rewrite IHu. Qed.

Lemma PyLong_digits sign u :
  u <> Decimal.Nil ->
  Py.PyLong_FromString
    (if sign : bool then String "-" (NilEmpty.string_of_uint u)
     else NilEmpty.string_of_uint u)
  = if Nat.ltb Py.max_str_digits (Decimal.nb_digits u) then None
    else Some ((if sign then -1 else 1) * uval u 0).
Proof.
  intros Hu.
  assert (Hpos : (0 < Decimal.nb_digits u)%nat) by (destruct u; simpl; [congruence|lia..]).
  assert (E : Py.PyLong_FromString
                (if sign : bool then String "-" (NilEmpty.string_of_uint u)
     else NilEmpty.string_of_uint u)
              = match Py.scan (NilEmpty.string_of_uint u) false 0 0 with
                | None => None
                | Some (v, digits, rest) =>
                    if Nat.eqb digits 0 then None
                    else if Py.truthy (Py.skip_space rest) then None
                    else if Nat.ltb Py.max_str_digits digits then None
                    else Some ((if sign then -1 else 1) * v)
                end).
  { destruct sign, u; try congruence; reflexivity. }
  rewrite E, scan_digits. cbn [Nat.add].
  destruct (Nat.eqb_spec (Decimal.nb_digits u) 0) as [H0|_]; [lia|].
  reflexivity.
Qed.

Lemma int_of_str_limit n :
  Py.int (Py.str_of_int n)
  = if Nat.ltb Py.max_str_digits (String.length (Py.str_of_int (Z.abs n)))
    then None else Some n.
Proof.
  unfold Py.int, Py.str_of_int.
  destruct n as [|p|p]; [reflexivity|..];
    change (Z.to_int (Z.abs (Z.pos p))) with (Decimal.Pos (Pos.to_uint p));
    change (Z.to_int (Z.abs (Z.neg p))) with (Decimal.Pos (Pos.to_uint p));
    cbn [Z.to_int NilEmpty.string_of_int];
    rewrite length_digits.
  - rewrite transform_digits.
    pose proof (PyLong_digits false _ (Unsigned.to_uint_nonnil p)) as E.
    cbv iota in E. rewrite E.
    rewrite uval_zero, Unsigned.of_to. reflexivity.
  - change (Py.transform (String "-" (NilEmpty.string_of_uint (Pos.to_uint p))))
      with (String "-" (Py.transform (NilEmpty.string_of_uint (Pos.to_uint p)))).
    rewrite transform_digits.
    pose proof (PyLong_digits true _ (Unsigned.to_uint_nonnil p)) as E.
    cbv iota in E. rewrite E.
    rewrite uval_zero, Unsigned.of_to. reflexivity.
Qed.

Lemma int_of_str n :
  (String.length (Py.str_of_int (Z.abs n)) <= Py.max_str_digits)%nat ->
  Py.int (Py.str_of_int n) = Some n.
Proof.
  intros H. rewrite int_of_str_limit.
  destruct (Nat.ltb_spec Py.max_str_digits
              (String.length (Py.str_of_int (Z.abs n)))); [lia|reflexivity].
Qed.

Lemma digits_no_comma u : ~ In ","%char (chars (NilEmpty.string_of_uint u)).
Proof.
  induction u; simpl; [tauto|..]; intros [H|H]; try discriminate H; tauto.
Qed.

Lemma str_no_comma n : ~ In ","%char (chars (Py.str_of_int n)).
Proof.
  unfold Py.str_of_int. destruct n as [|p|p]; simpl.
  - intros [H|[]]. discriminate H.
  - apply digits_no_comma.
  - intros [H|H]; [discriminate H | now apply digits_no_comma in H].
Qed.

Lemma strip_keeps c r :
  Py.Py_UNICODE_ISSPACE c = false -> Py.truthy (Py.strip (String c r)) = true.
Proof.
  intros Hc. unfold Py.strip. simpl. rewrite Hc. simpl.
  destruct (Py.rstrip r); [now rewrite Hc | reflexivity].
Qed.

Lemma str_head n :
  exists c r, Py.str_of_int n = String c r /\ Py.Py_UNICODE_ISSPACE c = false.
Proof.
  unfold Py.str_of_int. destruct n as [|p|p]; simpl.
  - now eexists _, _.
  - pose proof (Unsigned.to_uint_nonnil p) as Hp.
    destruct (Pos.to_uint p); [congruence|..]; now eexists _, _.
  - now eexists _, _.
Qed.

Lemma keep_all {A} (f : A -> bool) l :
  Forall (fun x => f x = true) l -> List.filter f l = l.
Proof.
  induction 1 as [|x l Hx _ IH]; simpl; [reflexivity|].
  now rewrite Hx, IH.
Qed.

Lemma comprehension_join ps :
  ps <> [] ->
  Forall (fun p => (String.length (Py.str_of_int (Z.abs p)) <= Py.max_str_digits)%nat) ps ->
  Py.truthy (join ","%char (map Py.str_of_int ps)) = true
  /\ comprehension (join ","%char (map Py.str_of_int ps)) = Some ps.
Proof.
  intros Hne Hlen. split.
  - destruct ps as [|p [|q rest]]; [congruence|..];
      cbn [map]; [|rewrite join_cons];
      destruct (str_head p) as (c & r & -> & _); reflexivity.
  - unfold comprehension.
    rewrite split_join.
    + rewrite keep_all.
      * apply mapM_Some. clear Hne.
        induction Hlen as [|p ps Hp _ IH]; constructor; [|exact IH].
        now apply int_of_str.
      * apply Forall_map, Forall_forall. intros p _. cbn.
        destruct (str_head p) as (c & r & -> & Hc). now apply strip_keeps.
    + destruct ps; [congruence|discriminate].
    + apply Forall_map, Forall_forall. intros p _. apply str_no_comma.
Qed.

Lemma spaces_blank p :
  forallb Py.Py_UNICODE_ISSPACE (chars p) = true ->
  Py.truthy (Py.strip p) = false.
Proof.
  intros H. apply lstrip_spaces in H. unfold Py.strip. now rewrite H.
Qed.

Lemma split_blank s :
  Forall (fun c => Py.Py_UNICODE_ISSPACE c = true \/ c = ","%char) (chars s) ->
  Forall (fun p => forallb Py.Py_UNICODE_ISSPACE (chars p) = true)
    (Py.split ","%char s).
Proof.
  induction s as [|c s IH]; simpl; intros H.
  - repeat constructor.
  - apply Forall_cons in H as [Hc H]. specialize (IH H).
    destruct (Ascii.eqb_spec c ","%char) as [->|Hne].
    + constructor; [reflexivity | exact IH].
    + destruct Hc as [Hc|Hc]; [|congruence].
      destruct (split_nonempty ","%char s) as (h & t & E). rewrite E in *.
      apply Forall_cons in IH as [Hh Ht].
      constructor; [simpl; now rewrite Hc, Hh | exact Ht].
Qed.

Lemma drop_all {A} (f : A -> bool) l :
  Forall (fun x => f x = false) l -> List.filter f l = [].
Proof.
  induction 1 as [|x l Hx _ IH]; simpl; [reflexivity|]. now rewrite Hx.
Qed.

(** X1.  [split] and [join] are inverse to each other: joining the pieces
    of a string with the separator gives the string back, no piece holds
    the separator, and a non-empty list of pieces free of the separator
    is what [split] returns on their join. *)
Theorem split_join_round_trip sep :
  (forall s,
      join sep (Py.split sep s) = s
      /\ Forall (fun p => ~ In sep (chars p)) (Py.split sep s))
  /\ (forall pieces,
        pieces <> [] ->
        Forall (fun p => ~ In sep (chars p)) pieces ->
        Py.split sep (join sep pieces) = pieces).
Proof.
  split; [intros s; apply join_split | intros pieces; apply split_join].
Qed.

(** X2.  The test [if p.strip()] of the comprehension rejects an entry
    exactly when all its characters are white space (the empty entry
    included). *)
Theorem blank_iff_spaces p :
  Py.truthy (Py.strip p) = false
  <-> forallb Py.Py_UNICODE_ISSPACE (chars p) = true.
Proof.
  split; [|apply spaces_blank].
  intros H. apply lstrip_spaces, lstrip_fixed.
  destruct (Py.strip p); [reflexivity|discriminate].
Qed.

(** X3.  [int] reads back the decimal form of every integer, negative ones
    included, up to the limit on the number of digits; beyond the limit it
    raises [ValueError]. *)
Theorem int_inverts_str n :
  Py.int (Py.str_of_int n)
  = if Nat.ltb Py.max_str_digits (String.length (Py.str_of_int (Z.abs n)))
    then None else Some n.
Proof. apply int_of_str_limit. Qed.

(** X4.  An override that lists integers in decimal, separated by commas,
    configures exactly these integers, in this order and with nothing
    printed (each integer short of the digit limit of [int]). *)
Theorem override_round_trip ps :
  ps <> [] ->
  Forall (fun p => (String.length (Py.str_of_int (Z.abs p)) <= Py.max_str_digits)%nat) ps ->
  init_ports None (Some (join ","%char (map Py.str_of_int ps))) = (ps, []).
Proof.
  intros Hne Hr.
  destruct (comprehension_join ps Hne Hr) as [Ht Hc].
  unfold init_ports. now rewrite Ht, Hc.
Qed.

(** X5.  A non-empty override made only of commas and white space gives an
    empty port list, with nothing printed and no fallback to the default
    ports. *)
Theorem blank_override_gives_no_ports s :
  Py.truthy s = true ->
  Forall (fun c => Py.Py_UNICODE_ISSPACE c = true \/ c = ","%char) (chars s) ->
  init_ports None (Some s) = ([], []).
Proof.
  intros Ht Hs. unfold init_ports, comprehension. rewrite Ht.
  rewrite drop_all; [reflexivity|].
  eapply Forall_impl; [apply split_blank, Hs|].
  intros p Hp. now apply spaces_blank.
Qed.

(** ** Further properties: encoding and decoding *)

Section Utf8RoundTrip.

Import Utf8.






Lemma utf8_decode_scalar s ch n :
  Forall is_byte s -> utf8_decode s = Decoded ch n -> scalar ch.
Proof.
  intros Hs H. unfold scalar.
  destruct s as [|c1 s1]; [discriminate|].
  apply Forall_cons in Hs as [Hc1 Hs]. unfold is_byte in Hc1.
  unfold utf8_decode, IS_CONTINUATION_BYTE in H.
  destruct (Z.ltb_spec c1 0x80); [injection H as <- <-; lia|].
  destruct (Z.ltb_spec c1 0xE0).
  { destruct (Z.ltb_spec c1 0xC2); [discriminate|].
    destruct s1 as [|c2 s2]; [discriminate|].
    split_tests H. injection H as <- <-.
    rewrite !Z.shiftl_mul_pow2 by lia. lia. }
  destruct (Z.ltb_spec c1 0xF0).
  { destruct s1 as [|c2 [|c3 s3]]; try discriminate.
    - split_tests H.
    - split_tests H; injection H as <- <-;
        rewrite !Z.shiftl_mul_pow2 by lia; lia. }
  destruct (Z.ltb_spec c1 0xF5); [|discriminate].
  destruct s1 as [|c2 [|c3 [|c4 s4]]]; try discriminate.
  - split_tests H.
  - split_tests H.
  - split_tests H; injection H as <- <-;
      rewrite !Z.shiftl_mul_pow2 by lia; lia.
Qed.

Lemma decode_loop_ignore_scalar fuel : forall s t,
  Forall is_byte s ->
  decode_loop fuel ignore s = inr t ->
  Forall scalar t /\ (length t <= length s)%nat.
Proof.
  induction fuel as [|fuel IH]; intros s t Hs H.
  - destruct s; injection H as <-; split; simpl; auto with lia.
  - destruct s as [|c s']; [injection H as <-; split; simpl; auto with lia|].
    rewrite decode_loop_step in H.
    destruct (utf8_decode (c :: s')) as [ch n| | |k] eqn:E.
    + destruct (decode_loop fuel ignore (drop n (c :: s'))) as [m|t'] eqn:E';
        [discriminate|]. injection H as <-.
      destruct (utf8_decode_sound _ _ _ Hs E) as [Hn _].
      apply IH in E' as [Hsc Hlen]; [|now apply Forall_drop].
      rewrite length_drop in Hlen. split.
      * constructor; [eapply utf8_decode_scalar; eauto | exact Hsc].
      * simpl in *. lia.
    + apply IH in H as [Hsc Hlen]; [|now apply Forall_drop].
      rewrite length_drop in Hlen. split; [exact Hsc | lia].
    + apply IH in H as [Hsc Hlen]; [|now apply Forall_drop].
      rewrite length_drop in Hlen. split; [exact Hsc | lia].
    + apply IH in H as [Hsc Hlen]; [|now apply Forall_drop].
      rewrite length_drop in Hlen. split; [exact Hsc | lia].
Qed.

(** X7.  The text stored for a chunk holds only Unicode scalar values (no
    surrogate, nothing above U+10FFFF) and has at most one character per
    received byte. *)
Theorem logged_text_is_scalar d :
  Forall scalar (logged_text d)
  /\ (length (logged_text d) <= length d)%nat.
Proof.
  unfold logged_text.
  destruct (decode d ignore) as [m|t] eqn:E; [split; [constructor|simpl; lia]|].
  unfold decode in E.
  apply decode_loop_ignore_scalar in E; [|apply bytes_range].
  now rewrite length_map in E.
Qed.

Lemma ord_range c : 0 <= Py.ord c < 256.
Proof.
  unfold Py.ord. pose proof (N_ascii_bounded c). lia.
Qed.

Lemma byte_of_ord c : Utf8.byte_of_Z (Py.ord c) = byte_of_ascii c.
Proof.
  unfold Utf8.byte_of_Z, Py.ord.
  now rewrite N2Z.id, <- byte_of_ascii_via_N.
Qed.

Lemma encode_text_ascii s :
  Forall (fun c => Py.ord c < 128) (chars s) ->
  Utf8.encode_text (map Py.ord (list_ascii_of_string s))
  = Some (map Py.ord (list_ascii_of_string s)).
Proof.
  induction s as [|c s IH]; simpl; intros H; [reflexivity|].
  apply Forall_cons in H as [Hc H].
  rewrite (IH H). unfold Utf8.encode_char.
  destruct (Z.ltb_spec (Py.ord c) 128); [reflexivity | lia].
Qed.

Lemma encode_text_latin1 cs :
  Forall (fun z => 0 <= z < 256) cs -> is_Some (Utf8.encode_text cs).
Proof.
  induction 1 as [|z cs Hz _ [bs IH]]; simpl; [eauto|].
  rewrite IH. unfold Utf8.encode_char.
  destruct (Z.ltb_spec z 128); [eauto|].
  destruct (Z.ltb_spec z 2048); [eauto | lia].
Qed.

(** X8.  [str.encode] never fails on a string of the program, and an
    ASCII string (each banner is one) encodes to its own characters, one
    byte each. *)
Theorem encode_of_str :
  (forall s, is_Some (Utf8.encode s))
  /\ (forall s,
        Forall (fun c => Py.ord c < 128) (chars s) ->
        Utf8.encode s = Some (list_byte_of_string s)).
Proof.
  split; intros s.
  - unfold Utf8.encode.
    destruct (encode_text_latin1 (map Py.ord (list_ascii_of_string s))) as [bs ->];
      [|eauto].
    apply Forall_map, Forall_forall. intros c _. apply ord_range.
  - intros H. unfold Utf8.encode. rewrite (encode_text_ascii s H).
    f_equal. unfold list_byte_of_string. rewrite map_map.
    apply map_ext. intros c. apply byte_of_ord.
Qed.

End Utf8RoundTrip.

(** ** Further properties: the connection handler *)

Lemma chunks_app a b : chunks (a ++ b) = (chunks a ++ chunks b)%list.
Proof.
  induction a as [|e a IH]; [reflexivity|].
  destruct e as [| [|[|]] | | | | | |]; simpl; now rewrite ?IH.
Qed.

Lemma records_app a b : records (a ++ b) = (records a ++ records b)%list.
Proof.
  induction a as [|e a IH]; [reflexivity|].
  destruct e; simpl; now rewrite ?IH.
Qed.

Lemma payloads_app a b : payloads (a ++ b) = (payloads a ++ payloads b)%list.
Proof.
  induction a as [|e a IH]; [reflexivity|].
  destruct e; simpl; now rewrite ?IH.
Qed.

Lemma failure_line_plain r :
  chunks (failure_line r) = [] /\ records (failure_line r) = []
  /\ payloads (failure_line r) = [].
Proof. destruct r; repeat split. Qed.

Lemma epilogue_plain p r :
  chunks (epilogue p r) = [] /\ records (epilogue p r) = []
  /\ payloads (epilogue p r) = [].
Proof. destruct r; repeat split. Qed.

Lemma logged_text_spec d text :
  Utf8.decode d Utf8.ignore = inr text -> logged_text d = text.
Proof. unfold logged_text. now intros ->. Qed.

(** The receive loop started with [k] clock readings behind it. *)
Lemma recv_loop_ledger self ip p w : forall inbound st st' r,
  recv_loop self ip p inbound w st = (st', r) ->
  exists ext,
    trace st' = (trace st ++ ext)%list
    /\ loop_trace self ip p ext r
    /\ records ext
       = imap (fun i d =>
                 (log_file self,
                  {| timestamp := clock w (ticks st + i); remote_ip := ip;
                     port := p; data := logged_text d |}))
           (chunks ext)
    /\ payloads ext = replicate (length (chunks ext)) reply.
Proof.
  induction inbound as [|x rest IH]; intros st st' r H.
  - injection H as <- <-. exists []. rewrite app_nil_r.
    repeat split. constructor.
  - rewrite recv_loop_step in H.
    destruct x as [e|[|b d]].
    + injection H as <- <-. exists [Recv (inl e)]. repeat split. constructor.
    + injection H as <- <-. exists [Recv (inr [])]. repeat split. constructor.
    + destruct (log_activity_spec self p ip (b :: d) w (emit (Recv (inr (b :: d))) st))
        as (text & Hd & Hlog).
      rewrite Hlog in H. unfold sendall at 1 in H.
      cbn [sends writes ticks trace emit] in H.
      pose proof (failure_line_plain (write_result w (writes st))) as (Fc & Fr & Fp).
      destruct (send_result w (sends st)) as [e|] eqn:Hs.
      * injection H as <- <-.
        eexists (Recv (inr (b :: d)) :: Append _ _ _ :: failure_line _ ++ [Sendall reply (Some e)])%list.
        split; [cbn [trace emit]; rewrite <- !app_assoc; reflexivity|].
        split; [eapply loop_send_error with (d := b :: d); [discriminate | exact Hd]|].
        cbn [chunks records payloads].
        rewrite chunks_app, records_app, payloads_app, Fc, Fr, Fp.
        cbn. rewrite Nat.add_0_r, (logged_text_spec _ _ Hd). split; reflexivity.
      * apply IH in H as (ext & Htr & Hlt & Hrec & Hpay).
        cbn [trace emit ticks] in Htr, Hrec.
        eexists (Recv (inr (b :: d)) :: Append _ _ _ :: failure_line _ ++ Sendall reply None :: ext)%list.
        split; [rewrite Htr, <- !app_assoc; reflexivity|].
        split; [apply loop_round; [discriminate | exact Hd | exact Hlt]|].
        cbn [chunks records payloads].
        rewrite chunks_app, records_app, payloads_app, Fc, Fr, Fp.
        cbn [app chunks records payloads length replicate imap].
        rewrite Hrec, Hpay, Nat.add_0_r, (logged_text_spec _ _ Hd).
        split; [|reflexivity]. f_equal.
        apply imap_ext. intros i d' _. cbn. do 3 f_equal. lia.
Qed.

(** How a run of the handler splits: the banner, if any, then the receive
    loop, then the epilogue; or the banner alone when sending it fails. *)
Lemma handle_connection_cases self inbound ip p w st :
  (exists st1 pre,
      trace st1 = (trace st ++ pre)%list
      /\ ticks st1 = ticks st
      /\ ((service_banners !! p = None /\ pre = [])
          \/ (exists banner,
                 service_banners !! p = Some banner
                 /\ send_result w (sends st) = None
                 /\ pre = [Sendall (list_byte_of_string banner) None]))
      /\ forall st2 r,
          recv_loop self ip p inbound w st1 = (st2, r) ->
          exists st3,
            handle_connection self inbound ip p w st = (st3, outcome r)
            /\ trace st3 = (trace st2 ++ epilogue p r)%list)
  \/ (exists banner e st3,
         service_banners !! p = Some banner
         /\ send_result w (sends st) = Some e
         /\ handle_connection self inbound ip p w st = (st3, Ret tt)
         /\ trace st3
            = (trace st
               ++ [Sendall (list_byte_of_string banner) (Some e);
                   Print ("[!] Error handling connection on port "
                          ++ Py.str_of_int p ++ ": " ++ str_of_exn e);
                   Close])%list).
Proof.
  destruct (banner_cases p) as [Hnone | (banner & Hb & Ht & Henc)].
  - left. exists st, []. rewrite app_nil_r.
    split; [reflexivity|]. split; [reflexivity|]. split; [now left|].
    intros st2 r Hr.
    unfold handle_connection, try_finally, try_except, mbind, M_bind, bind.
    rewrite Hnone. unfold ret at 1. rewrite Hr.
    destruct r as [[]|e|]; unfold print, close, emit; cbn [trace outcome epilogue];
      eexists; (split; [reflexivity|]); cbn [trace];
      rewrite <- ?app_assoc, ?app_nil_r; reflexivity.
  - destruct (send_result w (sends st)) as [e|] eqn:Hs.
    + right. exists banner, e.
      unfold handle_connection, try_finally, try_except, mbind, M_bind, bind.
      rewrite Hb, Ht. unfold encode_banner. rewrite Henc. unfold ret at 1.
      unfold sendall at 1. rewrite Hs.
      unfold print, close, emit; cbn [trace].
      eexists. split; [reflexivity|]. split; [reflexivity|].
      split; [reflexivity|].
      cbn [trace]. rewrite <- !app_assoc. reflexivity.
    + left.
      exists (emit (Sendall (list_byte_of_string banner) None)
                {| sends := S (sends st); writes := writes st;
                   ticks := ticks st; trace := trace st |}),
             [Sendall (list_byte_of_string banner) None].
      split; [reflexivity|]. split; [reflexivity|].
      split; [right; exists banner; auto|].
      intros st2 r Hr.
      unfold handle_connection, try_finally, try_except, mbind, M_bind, bind.
      rewrite Hb, Ht. unfold encode_banner. rewrite Henc. unfold ret at 1.
      unfold sendall at 1. rewrite Hs, Hr.
      destruct r as [[]|e|]; unfold print, close, emit; cbn [trace outcome epilogue];
        eexists; (split; [reflexivity|]); cbn [trace];
        rewrite <- ?app_assoc, ?app_nil_r; reflexivity.
Qed.

Lemma handle_connection_ledger self inbound ip p w st :
  exists ext,
    trace (fst (handle_connection self inbound ip p w st)) = (trace st ++ ext)%list
    /\ records ext
       = imap (fun i d =>
                 (log_file self,
                  {| timestamp := clock w (ticks st + i); remote_ip := ip;
                     port := p; data := logged_text d |}))
           (chunks ext)
    /\ payloads ext
       = (match service_banners !! p with
          | Some banner => [list_byte_of_string banner]
          | None => []
          end ++ replicate (length (chunks ext)) reply)%list.
Proof.
  destruct (handle_connection_cases self inbound ip p w st)
    as [(st1 & pre & Htr1 & Htk & Hpre & Hrun) | (banner & e & st3 & Hb & _ & -> & Htr)].
  - destruct (recv_loop self ip p inbound w st1) as [st2 r] eqn:Hloop.
    destruct (Hrun _ _ eq_refl) as (st3 & -> & Htr3).
    apply recv_loop_ledger in Hloop as (ext & Htr2 & _ & Hrec & Hpay).
    pose proof (epilogue_plain p r) as (Ec & Er & Ep).
    exists (pre ++ ext ++ epilogue p r)%list. cbn [fst].
    split; [rewrite Htr3, Htr2, Htr1, <- !app_assoc; reflexivity|].
    rewrite !chunks_app, !records_app, !payloads_app, Ec, Er, Ep, !app_nil_r.
    rewrite Htk in Hrec.
    destruct Hpre as [[-> ->] | (banner & -> & _ & ->)]; cbn [chunks records payloads app];
      rewrite Hrec, Hpay; split; reflexivity.
  - exists [Sendall (list_byte_of_string banner) (Some e);
            Print ("[!] Error handling connection on port "
                   ++ Py.str_of_int p ++ ": " ++ str_of_exn e); Close].
    cbn [fst]. split; [exact Htr|]. rewrite Hb. split; reflexivity.
Qed.

(** X9.  The records of a connection follow its chunks: one record per
    non-empty chunk, in the order of arrival, each written to the
    honeypot's log file with the handler's remote address and port, the
    decoded chunk, and the clock reading taken for it (the n-th record
    holds the n-th reading). *)
Theorem records_follow_chunks self inbound ip p w :
  let tr := trace (fst (handle_connection self inbound ip p w initial)) in
  records tr
  = imap (fun i d =>
            (log_file self,
             {| timestamp := clock w i; remote_ip := ip; port := p;
                data := logged_text d |}))
      (chunks tr).
Proof.
  destruct (handle_connection_ledger self inbound ip p w initial)
    as (ext & Htr & Hrec & _).
  cbv zeta. rewrite Htr. exact Hrec.
Qed.

(** X10.  The handler never sends anything derived from what it received:
    the payloads it hands to [sendall] are the banner of the port, if the
    port has one, followed by one fixed reply per non-empty chunk. *)
Theorem only_banner_and_replies self inbound ip p w :
  let tr := trace (fst (handle_connection self inbound ip p w initial)) in
  payloads tr
  = (match service_banners !! p with
     | Some banner => [list_byte_of_string banner]
     | None => []
     end ++ replicate (length (chunks tr)) reply)%list.
Proof.
  destruct (handle_connection_ledger self inbound ip p w initial)
    as (ext & Htr & _ & Hpay).
  cbv zeta. rewrite Htr. exact Hpay.
Qed.

Lemma recv_loop_stops self ip p w r rest :
  is_last r = true ->
  forall pre st,
    recv_loop self ip p (pre ++ r :: rest) w st
    = recv_loop self ip p (pre ++ [r]) w st.
Proof.
  intros Hr. induction pre as [|x pre IH]; intros st; cbn [app].
  - rewrite !recv_loop_step. destruct r as [e|[|b d]]; [reflexivity..|discriminate].
  - rewrite !recv_loop_step. destruct x as [e|[|b d]]; [reflexivity..|].
    destruct (log_activity self p ip (b :: d) w _) as [st1 [[]|e|]]; [|reflexivity..].
    destruct (sendall reply w st1) as [st2 [[]|e|]]; [|reflexivity..].
    apply IH.
Qed.

Lemma handler_body_ext (m k1 k2 : M unit) (h : exn -> M unit) w st :
  (forall st', k1 w st' = k2 w st') ->
  try_finally (try_except (m ≫= fun _ => k1) h) close w st
  = try_finally (try_except (m ≫= fun _ => k2) h) close w st.
Proof.
  intros H. unfold try_finally, try_except, mbind, M_bind, bind.
  destruct (m w st) as [st1 [[]|e|]]; rewrite ?H; reflexivity.
Qed.

(** X11.  The handler stops reading at the first empty read or read error:
    what the peer would deliver after it has no effect on the run. *)
Theorem nothing_read_after_the_end self ip p w r pre rest st :
  is_last r = true ->
  handle_connection self (pre ++ r :: rest) ip p w st
  = handle_connection self (pre ++ [r]) ip p w st.
Proof.
  intros Hr. unfold handle_connection.
  apply handler_body_ext. intros st'. now apply recv_loop_stops.
Qed.

Lemma recv_loop_steady self ip p w :
  (forall n, send_result w n = None) ->
  forall inbound st,
    Forall (fun r => is_last r = false) inbound ->
    exists st' ext,
      recv_loop self ip p inbound w st = (st', Wait)
      /\ trace st' = (trace st ++ ext)%list
      /\ map inr (chunks ext) = inbound
      /\ Close ∉ ext.
Proof.
  intros Hsend. induction inbound as [|x rest IH]; intros st Hin.
  - exists st, []. rewrite app_nil_r. repeat split. apply not_elem_of_nil.
  - apply Forall_cons in Hin as [Hx Hin].
    destruct x as [e|[|b d]]; try discriminate Hx.
    rewrite recv_loop_step.
    destruct (log_activity_spec self p ip (b :: d) w (emit (Recv (inr (b :: d))) st))
      as (text & Hd & ->).
    unfold sendall at 1. rewrite Hsend.
    match goal with |- context [recv_loop _ _ _ rest w ?s] =>
      destruct (IH s Hin) as (st' & ext & -> & Htr & Hch & Hcl) end.
    cbn [emit trace] in Htr.
    eexists st', (Recv (inr (b :: d)) :: Append _ _ _ :: failure_line _ ++ Sendall reply None :: ext)%list.
    split; [reflexivity|]. split; [rewrite Htr, <- !app_assoc; reflexivity|].
    split.
    + cbn [chunks]. rewrite chunks_app, (proj1 (failure_line_plain _)).
      cbn [app chunks map]. now rewrite Hch.
    + rewrite !not_elem_of_cons, not_elem_of_app, not_elem_of_cons.
      repeat split; try discriminate; auto using failure_line_no_close.
Qed.

(** X12.  As long as every read brings data and every send succeeds, the
    handler does not leave: it has served every chunk, has not closed the
    socket, and waits in [recv]. *)
Theorem handler_stays_while_peer_sends self inbound ip p w :
  (forall n, send_result w n = None) ->
  Forall (fun r => is_last r = false) inbound ->
  exists st',
    handle_connection self inbound ip p w initial = (st', Wait)
    /\ map inr (chunks (trace st')) = inbound
    /\ Close ∉ trace st'.
Proof.
  intros Hsend Hin.
  destruct (handle_connection_cases self inbound ip p w initial)
    as [(st1 & pre & Htr1 & _ & Hpre & Hrun) | (banner & e & st3 & _ & He & _)];
    [|rewrite Hsend in He; discriminate].
  destruct (recv_loop_steady self ip p w Hsend inbound st1 Hin)
    as (st2 & ext & Hloop & Htr2 & Hch & Hcl).
  destruct (Hrun _ _ Hloop) as (st3 & -> & Htr3).
  exists st3. split; [reflexivity|].
  rewrite Htr3, Htr2, Htr1. cbn [epilogue trace initial app]. rewrite app_nil_r.
  destruct Hpre as [[_ ->] | (banner & _ & _ & ->)]; cbn [app chunks].
  - split; [exact Hch | exact Hcl].
  - split; [exact Hch|]. rewrite not_elem_of_cons. split; [discriminate | exact Hcl].
Qed.

(** ** The further statements on sample inputs *)

Lemma split_join_round_trip_witness :
  Py.split ","%char (join ","%char ["21"; ""; " 80"]) = ["21"; ""; " 80"].
Proof.
  apply (proj2 (split_join_round_trip ","%char) ["21"; ""; " 80"]).
  - discriminate.
  - repeat constructor; simpl; intros H; decompose [or] H; congruence.
Defined.

Lemma override_round_trip_witness :
  init_ports None (Some (join ","%char (map Py.str_of_int [2121; 8080; -1])))
  = ([2121; 8080; -1], []).
Proof.
  apply (override_round_trip [2121; 8080; -1]).
  - discriminate.
  - repeat constructor; apply Nat.leb_le; vm_compute; reflexivity.
Defined.

Lemma blank_override_gives_no_ports_witness :
  init_ports None (Some " ,, ") = ([], []).
Proof.
  apply (blank_override_gives_no_ports " ,, ").
  - reflexivity.
  - repeat constructor; first [left; reflexivity | right; reflexivity].
Defined.


Lemma encode_of_str_witness :
  Utf8.encode ("220 FTP server ready" ++ CRLF)
  = Some (list_byte_of_string ("220 FTP server ready" ++ CRLF)).
Proof.
  apply (proj2 encode_of_str ("220 FTP server ready" ++ CRLF)).
  repeat constructor; vm_compute; reflexivity.
Defined.

Lemma nothing_read_after_the_end_witness :
  handle_connection sample ([inr ls_chunk] ++ inr [] :: [inr ls_chunk]) peer 22 calm initial
  = handle_connection sample ([inr ls_chunk] ++ [inr []]) peer 22 calm initial.
Proof.
  apply (nothing_read_after_the_end sample peer 22 calm (inr [])
           [inr ls_chunk] [inr ls_chunk] initial).
  reflexivity.
Defined.

Lemma handler_stays_while_peer_sends_witness :
  exists st',
    handle_connection sample [inr ls_chunk; inr ls_chunk] peer 22 calm initial
    = (st', Wait)
    /\ map (@inr exn bytes) (chunks (trace st')) = [inr ls_chunk; inr ls_chunk]
    /\ Close ∉ trace st'.
Proof.
  apply (handler_stays_while_peer_sends sample [inr ls_chunk; inr ls_chunk]
           peer 22 calm).
  - intros n. reflexivity.
  - repeat constructor.
Defined.

(** ** Further properties: logging and the wire *)

Lemma wire_app a b : wire (a ++ b) = (wire a ++ wire b)%list.
Proof.
  induction a as [|e a IH]; [reflexivity|].
  destruct e; simpl; now rewrite ?IH.
Qed.

Lemma wire_failure_line r : wire (failure_line r) = [].
Proof. destruct r; reflexivity. Qed.

Lemma recv_loop_wire self ip p w w' :
  (forall n, send_result w n = send_result w' n) ->
  forall inbound st st',
    sends st = sends st' ->
    exists ext ext' r st1 st1',
      recv_loop self ip p inbound w st = (st1, r)
      /\ recv_loop self ip p inbound w' st' = (st1', r)
      /\ trace st1 = (trace st ++ ext)%list
      /\ trace st1' = (trace st' ++ ext')%list
      /\ wire ext = wire ext'.
Proof.
  intros Hsend. induction inbound as [|x rest IH]; intros st st' Hs.
  - exists [], [], Wait, st, st'. rewrite !app_nil_r. repeat split.
  - rewrite !recv_loop_step. destruct x as [e|[|b d]].
    + exists [Recv (inl e)], [Recv (inl e)], (Raise e). eexists _, _. repeat split.
    + exists [Recv (inr [])], [Recv (inr [])], (Ret tt). eexists _, _. repeat split.
    + destruct (log_activity_spec self p ip (b :: d) w (emit (Recv (inr (b :: d))) st))
        as (text & Hd & ->).
      destruct (log_activity_spec self p ip (b :: d) w' (emit (Recv (inr (b :: d))) st'))
        as (text' & Hd' & ->).
      unfold sendall. cbn [sends writes ticks trace emit].
      rewrite <- Hs, <- Hsend.
      destruct (send_result w (sends st)) as [e|].
      * eexists (_ :: _ :: failure_line _ ++ [_])%list,
                (_ :: _ :: failure_line _ ++ [_])%list, (Raise e), _, _.
        split; [reflexivity|]. split; [reflexivity|].
        cbn [emit trace]. rewrite <- !app_assoc.
        split; [reflexivity|]. split; [reflexivity|].
        cbn [wire]. now rewrite !wire_app, !wire_failure_line.
      * match goal with
        | |- context [recv_loop _ _ _ rest w ?s] =>
            match goal with
            | |- context [recv_loop _ _ _ rest w' ?s'] =>
                destruct (IH s s') as (ext & ext' & r & st1 & st1' & -> & -> & Htr & Htr' & Hw);
                  [cbn [emit sends]; congruence|]
            end
        end.
        cbn [emit trace] in Htr, Htr'.
        eexists (_ :: _ :: failure_line _ ++ _ :: ext)%list,
                (_ :: _ :: failure_line _ ++ _ :: ext')%list, r, st1, st1'.
        split; [reflexivity|]. split; [reflexivity|].
        rewrite Htr, Htr', <- !app_assoc.
        split; [reflexivity|]. split; [reflexivity|].
        cbn [wire]. rewrite !wire_app, !wire_failure_line. cbn [app wire].
        now rewrite Hw.
Qed.

(** X15.  A failure to write the log never shows on the connection: two
    runs of the handler that differ only in the outcomes of the log
    appends (and in the clock) end the same way and perform the same
    reads, sends and close. *)
Theorem logging_never_changes_the_wire self inbound ip p w w' :
  (forall n, send_result w n = send_result w' n) ->
  snd (handle_connection self inbound ip p w initial)
  = snd (handle_connection self inbound ip p w' initial)
  /\ wire (trace (fst (handle_connection self inbound ip p w initial)))
     = wire (trace (fst (handle_connection self inbound ip p w' initial))).
Proof.
  intros Hsend.
  unfold handle_connection, try_finally, try_except, mbind, M_bind, bind.
  destruct (banner_cases p) as [Hnone | (banner & Hb & Ht & Henc)].
  - rewrite Hnone. unfold ret.
    destruct (recv_loop_wire self ip p w w' Hsend inbound initial initial eq_refl)
      as (ext & ext' & r & st1 & st1' & -> & -> & Htr & Htr' & Hw).
    destruct r as [[]|e|]; unfold print, close, emit; cbn [fst snd trace];
      rewrite Htr, Htr'; cbn [trace initial app];
      rewrite ?wire_app, Hw; split; reflexivity.
  - rewrite Hb, Ht. unfold encode_banner. rewrite Henc. unfold ret, sendall.
    rewrite <- Hsend.
    destruct (send_result w (sends initial)) as [e|].
    + split; reflexivity.
    + match goal with
      | |- context [recv_loop _ _ _ inbound w ?s] =>
          match goal with
          | |- context [recv_loop _ _ _ inbound w' ?s'] =>
              destruct (recv_loop_wire self ip p w w' Hsend inbound s s' eq_refl)
                as (ext & ext' & r & st1 & st1' & -> & -> & Htr & Htr' & Hw)
          end
      end.
      cbn [emit trace initial app] in Htr, Htr'.
      destruct r as [[]|e|]; unfold print, close, emit; cbn [fst snd trace];
        rewrite Htr, Htr'; cbn [wire app];
        rewrite ?wire_app, Hw; split; reflexivity.
Qed.

Lemma logging_never_changes_the_wire_witness :
  snd (handle_connection sample [inr ls_chunk; inr []] peer 22 calm initial)
  = snd (handle_connection sample [inr ls_chunk; inr []] peer 22 disk_full initial)
  /\ wire (trace (fst (handle_connection sample [inr ls_chunk; inr []] peer 22
                        calm initial)))
     = wire (trace (fst (handle_connection sample [inr ls_chunk; inr []] peer 22
                           disk_full initial))).
Proof.
  apply (logging_never_changes_the_wire sample [inr ls_chunk; inr []] peer 22
           calm disk_full).
  intros n. reflexivity.
Defined.

(** ** The sources of the port list *)

Lemma default_ports_valid :
  NoDup DEFAULT_PORTS /\ Forall (fun p => 1 <= p <= 65535) DEFAULT_PORTS.
Proof.
  split.
  - unfold DEFAULT_PORTS. repeat (apply NoDup_cons; split);
      rewrite ?not_elem_of_cons; repeat split; try lia;
      try apply not_elem_of_nil. apply NoDup_nil_2.
  - unfold DEFAULT_PORTS. repeat constructor; lia.
Qed.

(** C8 (as amended).  The default list holds distinct integers between 1
    and 65535, and it is the port list when nothing else is given (no
    list passed, no override or an empty one).  A list passed to the
    constructor is used as it is.  A non-empty override gives the integers
    its non-blank entries parse to, in order (the default list if [int]
    rejects one), with no range check and no removal of duplicates: an
    override that lists any integers in decimal gives exactly them. *)
Theorem port_list_sources :
  (NoDup DEFAULT_PORTS /\ Forall (fun p => 1 <= p <= 65535) DEFAULT_PORTS)
  /\ (forall ps getenv, fst (init_ports (Some ps) getenv) = ps)
  /\ fst (init_ports None None) = DEFAULT_PORTS
  /\ fst (init_ports None (Some "")) = DEFAULT_PORTS
  /\ (forall s,
        Py.truthy s = true ->
        fst (init_ports None (Some s))
        = match mapM Py.int
                  (List.filter (fun p => Py.truthy (Py.strip p))
                     (Py.split ","%char s)) with
          | Some ps => ps
          | None => DEFAULT_PORTS
          end)
  /\ (forall ps,
        ps <> [] ->
        Forall (fun p => (String.length (Py.str_of_int (Z.abs p))
                          <= Py.max_str_digits)%nat) ps ->
        fst (init_ports None (Some (join ","%char (map Py.str_of_int ps)))) = ps).
Proof.
  split; [exact default_ports_valid|].
  split; [reflexivity|]. split; [reflexivity|]. split; [reflexivity|].
  split.
  - intros s Hs. unfold init_ports, comprehension. rewrite Hs.
    now destruct (mapM _ _).
  - intros ps Hne Hlen.
    destruct (comprehension_join ps Hne Hlen) as [Ht Hc].
    unfold init_ports. now rewrite Ht, Hc.
Qed.

Lemma port_list_sources_witness :
  fst (init_ports None (Some (join ","%char (map Py.str_of_int [0; 80; 80; 70000]))))
  = [0; 80; 80; 70000].
Proof.
  apply (proj2 (proj2 (proj2 (proj2 (proj2 port_list_sources))))
           [0; 80; 80; 70000]).
  - discriminate.
  - repeat constructor; apply Nat.leb_le; vm_compute; reflexivity.
Defined.

(** ** Every way out of the handler closes the socket *)

Lemma send_fails_step w from count :
  send_fails w from (S count)
  = match send_result w from with
    | Some _ => true
    | None => send_fails w (S from) count
    end.
Proof.
  unfold send_fails. cbn [seq existsb].
  now destruct (send_result w from).
Qed.

(** The receive loop waits exactly when no read is the last one and no
    send it comes to fails. *)
Lemma recv_loop_outcome self ip p w : forall inbound st,
  match snd (recv_loop self ip p inbound w st) with
  | Wait =>
      existsb is_last inbound || send_fails w (sends st) (length inbound) = false
  | _ =>
      existsb is_last inbound || send_fails w (sends st) (length inbound) = true
  end.
Proof.
  induction inbound as [|x rest IH]; intros st.
  - reflexivity.
  - rewrite recv_loop_step. cbn [length existsb].
    destruct x as [e|[|b d]]; [reflexivity..|].
    destruct (log_activity_spec self p ip (b :: d) w (emit (Recv (inr (b :: d))) st))
      as (text & _ & ->).
    unfold sendall. cbn [sends writes ticks trace emit is_last orb].
    rewrite send_fails_step.
    destruct (send_result w (sends st)) as [e|].
    + cbn [snd]. now rewrite orb_true_r.
    + match goal with |- context [recv_loop _ _ _ rest w ?s] =>
        specialize (IH s) end.
      cbn [sends emit] in IH. exact IH.
Qed.

Lemma handle_connection_outcome self inbound ip p w :
  snd (handle_connection self inbound ip p w initial)
  = if leaves p w inbound then Ret tt else Wait.
Proof.
  unfold leaves, handle_connection, try_finally, try_except, mbind, M_bind, bind.
  destruct (banner_cases p) as [Hnone | (banner & Hb & Ht & Henc)].
  - rewrite Hnone. unfold ret. cbn [Nat.add].
    pose proof (recv_loop_outcome self ip p w inbound initial) as H.
    cbn [sends initial] in H.
    destruct (recv_loop self ip p inbound w initial) as [st r].
    cbn [snd] in H. destruct r as [[]|e|]; rewrite H; reflexivity.
  - rewrite Hb, Ht. unfold encode_banner. rewrite Henc. unfold ret, sendall.
    cbn [Nat.add sends initial]. rewrite send_fails_step.
    destruct (send_result w 0%nat) as [e|].
    + now rewrite orb_true_r.
    + match goal with |- context [recv_loop _ _ _ inbound w ?s] =>
        pose proof (recv_loop_outcome self ip p w inbound s) as H;
        destruct (recv_loop self ip p inbound w s) as [st r]
      end.
      cbn [snd sends emit] in H. destruct r as [[]|e|]; rewrite H; reflexivity.
Qed.

(** C9.  The handler leaves whenever a read is empty (end of file) or
    fails, or a send it comes to fails (the banner's or a reply's); it then
    returns normally with the socket closed exactly once, as its last
    action, right after the empty read, or after the failed read or send
    and its console line.  Otherwise it is waiting in [recv] and has not
    closed the socket. *)
Theorem closed_exactly_once self inbound ip p w :
  let run := handle_connection self inbound ip p w initial in
  if leaves p w inbound
  then snd run = Ret tt
       /\ exists body,
            trace (fst run) = (body ++ [Close])%list
            /\ (Close ∉ body)
            /\ ((exists b0, body = (b0 ++ [Recv (inr [])])%list)
                \/ (exists b0 e line, body = (b0 ++ [Recv (inl e); Print line])%list)
                \/ (exists b0 payload e line,
                      body = (b0 ++ [Sendall payload (Some e); Print line])%list))
  else snd run = Wait /\ Close ∉ trace (fst run).
Proof.
  cbv zeta.
  pose proof (handle_connection_outcome self inbound ip p w) as Hout.
  pose proof (handler_closes_on_return self inbound ip p w) as Hsafe.
  destruct (handle_connection self inbound ip p w initial) as [st r].
  cbn [fst snd] in *.
  destruct (leaves p w inbound); subst r; split; auto.
Qed.

Lemma closed_exactly_once_witness :
  snd (handle_connection sample [inr ls_chunk; inr []] peer 22 calm initial) = Ret tt
  /\ exists body,
       trace (fst (handle_connection sample [inr ls_chunk; inr []] peer 22 calm initial))
       = (body ++ [Close])%list
       /\ (Close ∉ body)
       /\ ((exists b0, body = (b0 ++ [Recv (inr [])])%list)
           \/ (exists b0 e line, body = (b0 ++ [Recv (inl e); Print line])%list)
           \/ (exists b0 payload e line,
                 body = (b0 ++ [Sendall payload (Some e); Print line])%list)).
Proof.
  exact (closed_exactly_once sample [inr ls_chunk; inr []] peer 22 calm).
Defined.

(** ** Further properties: the listener *)

Lemma accepted_app a b : accepted (a ++ b) = (accepted a ++ accepted b)%list.
Proof.
  induction a as [|e a IH]; [reflexivity|].
  destruct e as [| | | | | | [|] |]; simpl; now rewrite ?IH.
Qed.

Lemma starts_app a b : starts (a ++ b) = (starts a ++ starts b)%list.
Proof.
  induction a as [|e a IH]; [reflexivity|].
  destruct e; simpl; now rewrite ?IH.
Qed.

(** With every thread started, the listener is [start_listener]. *)
Lemma accept_loop_threads_started p w : forall accepts st,
  accept_loop_threads p
    (map (fun r : exn + conn =>
            match r with inl e => inl e | inr c => inr (c, None) end) accepts) w st
  = accept_loop p accepts w st.
Proof.
  induction accepts as [|r rest IH]; intros st; [reflexivity|].
  cbn [map accept_loop_threads accept_loop].
  unfold mbind, M_bind, bind.
  destruct r as [e|[client [rip rport]]]; [reflexivity|].
  unfold accept, print, start_thread, start. cbn [emit]. apply IH.
Qed.

Lemma accept_loop_threads_ledger p w : forall arrivals st,
  exists st' r ext,
    accept_loop_threads p arrivals w st = (st', r)
    /\ trace st' = (trace st ++ ext)%list
    /\ accepted ext = taken arrivals
    /\ starts ext = map (fun c : conn => (fst c, fst (snd c), p)) (served arrivals)
    /\ match r with
       | Ret _ => False
       | Raise _ => existsb is_failure arrivals = true
       | Wait => existsb is_failure arrivals = false
       end.
Proof.
  induction arrivals as [|x rest IH]; intros st.
  - exists st, Wait, []. rewrite app_nil_r. repeat split.
  - destruct x as [e|[[client [rip rport]] [e|]]].
    + exists (emit (Accept (inl e)) st), (Raise e), [Accept (inl e)]. repeat split.
    + cbn [accept_loop_threads].
      unfold mbind, M_bind, bind, accept, print, start_thread, raise.
      cbn [emit trace].
      eexists _, (Raise e), [Accept (inr (client, (rip, rport))); Print _].
      split; [reflexivity|]. cbn [emit trace]. rewrite <- ?app_assoc.
      repeat split.
    + cbn [accept_loop_threads].
      unfold mbind, M_bind, bind, accept, print, start_thread, start.
      cbn [emit trace].
      match goal with |- context [accept_loop_threads p rest w ?s] =>
        destruct (IH s) as (st' & r & ext & -> & Htr & Hacc & Hst & Hr) end.
      cbn [emit trace] in Htr.
      eexists st', r, (Accept (inr (client, (rip, rport))) :: Print _ :: Start client rip p :: ext).
      split; [reflexivity|]. split; [rewrite Htr, <- !app_assoc; reflexivity|].
      cbn [accepted starts served taken map fst snd existsb is_failure orb].
      rewrite Hacc, Hst. repeat split. exact Hr.
Qed.

(** X13.  The listener hands every connection that arrives before the
    first failure, of [accept] or of a thread start, to exactly one
    handler thread, in the order of acceptance, with the connection's
    socket and remote address and the listener's own port.  A connection
    whose thread cannot be started has been accepted and gets no handler,
    and nothing is accepted after a failure. *)
Theorem every_connection_gets_a_handler self p arrivals w :
  let tr := trace (fst (start_listener_threads self p None arrivals w initial)) in
  accepted tr = taken arrivals
  /\ starts tr = map (fun c : conn => (fst c, fst (snd c), p)) (served arrivals).
Proof.
  cbv zeta.
  unfold start_listener_threads, try_except, mbind, M_bind, bind, listen, print.
  match goal with |- context [accept_loop_threads p arrivals w ?s] =>
    destruct (accept_loop_threads_ledger p w arrivals s)
      as (st' & r & ext & -> & Htr & Hacc & Hst & _) end.
  cbn [emit trace initial app] in Htr.
  destruct r as [[]|e|]; cbn [fst emit trace]; rewrite Htr;
    cbn [accepted starts app]; rewrite ?accepted_app, ?starts_app, Hacc, Hst;
    cbn [accepted starts]; rewrite ?app_nil_r; split; reflexivity.
Qed.

(** X14.  When the server socket cannot be set up (the port is taken, say)
    the listener prints the error and returns without calling [accept];
    once it listens it returns exactly when an [accept] fails or a handler
    thread cannot be started, and otherwise waits in [accept].  It never
    raises. *)
Theorem listener_outcome self p arrivals w st :
  (forall e,
      start_listener_threads self p (Some e) arrivals w st
      = (emit (Print ("[!] Error starting listener on port " ++ Py.str_of_int p
                      ++ ": " ++ str_of_exn e))
           (emit (Listen (bind_ip self) p (Some e)) st),
         Ret tt))
  /\ snd (start_listener_threads self p None arrivals w st)
     = if existsb is_failure arrivals then Ret tt else Wait.
Proof.
  split; [reflexivity|].
  unfold start_listener_threads, try_except, mbind, M_bind, bind, listen, print.
  match goal with |- context [accept_loop_threads p arrivals w ?s] =>
    destruct (accept_loop_threads_ledger p w arrivals s)
      as (st' & r & ext & -> & _ & _ & _ & Hr) end.
  destruct r as [[]|e|]; [contradiction|..]; now rewrite Hr.
Qed.
